(** * Elastic search grid: value index, suggestions, chips and filter translation

    A shallow embedding of [src/grid.tsx] (the [ElasticSearchGrid] component)
    and the proofs of its specification.

    Modelling conventions.
    - A JavaScript string is a [string]: a sequence of code units.  Code units
      are 8 bits wide here, read as the code points U+0000..U+00FF, and
      [toLowerCase] is JavaScript's [String.prototype.toLowerCase] on that
      range.
    - A JavaScript object used as a dictionary ([map], [filterModel]) is a
      [gmap] of its own properties, a [Set<string>] is a [gset string].  The
      keys of [map] are field names of [RowData]; the keys read on
      [filterModel] are the columns of arbitrary chips, so a read may hit a
      member inherited from [Object.prototype], which [applyFilters_chip]
      models.  Enumeration ([Object.entries], [Set.forEach]) follows the
      container's canonical order; the properties below are about membership
      only.
    - React state is a record; a handler is a function from the state it
      closes over to the state after its setters ran. *)

From Stdlib Require Import Ascii.
From stdpp Require Import gmap strings list fin_maps.

(** ** JavaScript strings *)

Module Js.

(** [!s] is [true] exactly for the empty string. *)
Definition truthy (s : string) : bool :=
  match s with
  | EmptyString => false
  | String _ _ => true
  end.

(** Lower-casing of one code unit of the range U+0000..U+00FF: the letters
    A..Z and the letters U+00C0..U+00DE, without the multiplication sign
    U+00D7, move up by 32; every other code unit maps to itself. *)
Definition toLowerCase_unit (c : ascii) : ascii :=
  let n := nat_of_ascii c in
  if (Nat.leb 65 n && Nat.leb n 90)
     || (Nat.leb 192 n && Nat.leb n 222 && negb (Nat.eqb n 215))
  then ascii_of_nat (n + 32)
  else c.

(** [s.toLowerCase()] *)
Fixpoint toLowerCase (s : string) : string :=
  match s with
  | EmptyString => EmptyString
  | String c s' => String (toLowerCase_unit c) (toLowerCase s')
  end.

(** [s.startsWith(t)] *)
Fixpoint startsWith (s t : string) {struct t} : bool :=
  match t with
  | EmptyString => true
  | String b t' =>
      match s with
      | EmptyString => false
      | String a s' => if Ascii.eqb a b then startsWith s' t' else false
      end
  end.

(** [s.includes(t)]: [t] occurs in [s] at some position. *)
Fixpoint includes (s t : string) : bool :=
  startsWith s t ||
  match s with
  | EmptyString => false
  | String _ s' => includes s' t
  end.

(** [String(val)] for a value that is a string already. *)
Definition String_of (val : string) : string := val.

(** [t] occurs in [s]: [s] is some prefix, then [t], then some suffix. *)
Definition substring_of (t s : string) : Prop :=
  ∃ pre post : string, s = pre +:+ t +:+ post.

(** [t] occurs in [s] when case is ignored: both are compared in lower
    case. *)
Definition ci_substring_of (t s : string) : Prop :=
  substring_of (toLowerCase t) (toLowerCase s).

End Js.

(** ** Data model *)

Record RowData := mkRowData {
  ticker : string;
  name : string;
  sector : string;
}.

Record Suggestion := mkSuggestion {
  column : string;  (* "ticker", "name", "sector", or "global" *)
  value : string;
}.

Definition rowData : list RowData :=
  [ mkRowData "AAPL" "Apple Inc." "Tech";
    mkRowData "GOOG" "Alphabet Inc." "Tech";
    mkRowData "TSLA" "Tesla Inc." "Auto";
    mkRowData "JPM" "JP Morgan" "Finance";
    mkRowData "F" "Ford" "Auto" ].

(** [Object.entries(row)] and [Object.values(row)], in declaration order. *)
Definition Object_entries (row : RowData) : list (string * string) :=
  [ ("ticker", ticker row); ("name", name row); ("sector", sector row) ].

Definition Object_values (row : RowData) : list string :=
  [ ticker row; name row; sector row ].

(** The row has a field named [c] whose stringified value is [v]. *)
Definition has_field (row : RowData) (c v : string) : Prop :=
  ∃ val, (c, val) ∈ Object_entries row ∧ Js.String_of val = v.

(** ** Value index: [columnValueMap] *)

(** The body of the inner [forEach]:
    [if (!map[col]) map[col] = new Set(); map[col].add(String(val));] *)
Definition columnValueMap_add (map : gmap string (gset string))
    (entry : string * string) : gmap string (gset string) :=
  let '(col, val) := entry in
  let map :=
    match map !! col with
    | None => <[col := ∅]> map
    | Some _ => map
    end in
  alter (λ values, values ∪ {[ Js.String_of val ]}) col map.

Definition columnValueMap_row (map : gmap string (gset string))
    (row : RowData) : gmap string (gset string) :=
  fold_left columnValueMap_add (Object_entries row) map.

Definition columnValueMap (availableRows : list RowData)
  : gmap string (gset string) :=
  fold_left columnValueMap_row availableRows ∅.

(** [v] is in the index's set for column [c]. *)
Definition index_has (index : gmap string (gset string)) (c v : string) : Prop :=
  ∃ values, index !! c = Some values ∧ v ∈ values.

(** ** Suggestions *)

(** The body of the inner [forEach] of [suggestions]. *)
Definition suggestions_value (inputValue col : string)
    (results : list Suggestion) (val : string) : list Suggestion :=
  if Js.includes (Js.toLowerCase val) (Js.toLowerCase inputValue)
  then results ++ [ mkSuggestion col val ]
  else results.

Definition suggestions_column (inputValue : string)
    (results : list Suggestion) (entry : string * gset string)
  : list Suggestion :=
  let '(col, values) := entry in
  fold_left (suggestions_value inputValue col) (elements values) results.

Definition suggestions (inputValue : string)
    (columnValueMap : gmap string (gset string)) : list Suggestion :=
  if negb (Js.truthy inputValue) then []
  else fold_left (suggestions_column inputValue) (map_to_list columnValueMap) [].

(** ** Filter translation: [applyFilters] *)

(** An entry of the filter model: [{ filterType: "set", values: [...] }]. *)
Record SetFilter := mkSetFilter {
  filterType : string;
  values : list string;
}.

(** What the grid holds after [setFilterModel] and [setGridOption]; the two
    options are the closures the component installs, [filterChanged] counts
    the calls of [onFilterChanged]. *)
Record GridApi := mkGridApi {
  gridFilterModel : gmap string SetFilter;
  gridIsExternalFilterPresent : unit → bool;
  gridDoesExternalFilterPass : RowData → bool;
  filterChanged : nat;
}.

(** The names a plain object inherits from [Object.prototype]: reading one
    of them on [{}] gives the inherited member, not [undefined]. *)
Definition Object_prototype_keys : list string :=
  [ "constructor"; "__proto__"; "hasOwnProperty"; "isPrototypeOf";
    "propertyIsEnumerable"; "toLocaleString"; "toString"; "valueOf";
    "__defineGetter__"; "__defineSetter__"; "__lookupGetter__";
    "__lookupSetter__" ].

(** The chip makes the loop throw: a column chip whose column is an inherited
    name. *)
Definition throws (s : Suggestion) : Prop :=
  column s ≠ "global" ∧ column s ∈ Object_prototype_keys.

(** The body of [filters.forEach] over the pair [(filterModel, globalTerms)];
    [None] is the [TypeError] of [filterModel[s.column].values.push] when
    [filterModel[s.column]] is an inherited member: it is truthy, so no entry
    is created, and it has no [values] array. *)
Definition applyFilters_chip (acc : gmap string SetFilter * list string)
    (s : Suggestion) : option (gmap string SetFilter * list string) :=
  let '(filterModel, globalTerms) := acc in
  if decide (column s = "global") then
    Some (filterModel, globalTerms ++ [ Js.toLowerCase (value s) ])
  else
    match filterModel !! column s with
    | Some _ =>
        Some (alter (λ f, mkSetFilter (filterType f) (values f ++ [ value s ]))
                (column s) filterModel,
              globalTerms)
    | None =>
        if decide (column s ∈ Object_prototype_keys) then None
        else
          Some (alter (λ f, mkSetFilter (filterType f) (values f ++ [ value s ]))
                  (column s)
                  (<[column s := mkSetFilter "set" []]> filterModel),
                globalTerms)
    end.

(** The loop of [applyFilters]: [None] when some chip throws. *)
Definition applyFilters_translate (filters : list Suggestion)
  : option (gmap string SetFilter * list string) :=
  fold_left (λ acc s, acc ≫= λ a, applyFilters_chip a s) filters (Some (∅, [])).

(** The same loop body when every column read is an own key. *)
Definition applyFilters_chip_own (acc : gmap string SetFilter * list string)
    (s : Suggestion) : gmap string SetFilter * list string :=
  let '(filterModel, globalTerms) := acc in
  if decide (column s = "global") then
    (filterModel, globalTerms ++ [ Js.toLowerCase (value s) ])
  else
    let filterModel :=
      match filterModel !! column s with
      | None => <[column s := mkSetFilter "set" []]> filterModel
      | Some _ => filterModel
      end in
    (alter (λ f, mkSetFilter (filterType f) (values f ++ [ value s ]))
           (column s) filterModel,
     globalTerms).

Definition applyFilters_translate_own (filters : list Suggestion)
  : gmap string SetFilter * list string :=
  fold_left applyFilters_chip_own filters (∅, []).

(** The filter model and the global terms the loop leaves when it completes
    (see [applyFilters_translate_eq]). *)
Definition filterModel_of (filters : list Suggestion) : gmap string SetFilter :=
  (applyFilters_translate_own filters).1.

Definition globalTerms_of (filters : list Suggestion) : list string :=
  (applyFilters_translate_own filters).2.

(** The values of the chips of column [c], in chip order. *)
Definition chip_values (c : string) (filters : list Suggestion) : list string :=
  value <$> filter (λ s, column s = c) filters.

(** [() => globalTerms.length > 0] *)
Definition isExternalFilterPresent (globalTerms : list string) (_ : unit) : bool :=
  Nat.ltb 0 (length globalTerms).

(** The closure installed as [doesExternalFilterPass], applied to [node.data]. *)
Definition doesExternalFilterPass (globalTerms : list string)
    (data : RowData) : bool :=
  if Nat.eqb (length globalTerms) 0 then true
  else
    forallb
      (λ term,
         existsb (λ val, Js.includes (Js.toLowerCase (Js.String_of val)) term)
                 (Object_values data))
      globalTerms.

(** ** Component state and handlers *)

Record State := mkState {
  inputValue : string;
  selected : list Suggestion;
  availableRows : list RowData;
  gridApi : option GridApi;  (* [gridRef.current?.api] *)
}.

Definition setInputValue (v : string) (st : State) : State :=
  mkState v (selected st) (availableRows st) (gridApi st).

Definition setSelected (v : list Suggestion) (st : State) : State :=
  mkState (inputValue st) v (availableRows st) (gridApi st).

Definition setAvailableRows (v : list RowData) (st : State) : State :=
  mkState (inputValue st) (selected st) v (gridApi st).

(** The [filterChanged] listener: the rows of the nodes that carry data. *)
Definition listener (nodes : list (option RowData)) (st : State) : State :=
  setAvailableRows (omap id nodes) st.

(** The suggestions of a render: the memo over [inputValue] and the index of
    [availableRows]. *)
Definition suggestions_of (st : State) : list Suggestion :=
  suggestions (inputValue st) (columnValueMap (availableRows st)).

(** After the guard on the grid api the loop runs; when it throws, nothing
    has been set on the grid, and the error leaves the handler after its
    state setters, which all come before the call. *)
Definition applyFilters (filters : list Suggestion) (st : State) : State :=
  match gridApi st with
  | None => st
  | Some api =>
      match applyFilters_translate filters with
      | None => st
      | Some (filterModel, globalTerms) =>
          mkState (inputValue st) (selected st) (availableRows st)
            (Some (mkGridApi filterModel
                     (isExternalFilterPresent globalTerms)
                     (doesExternalFilterPass globalTerms)
                     (S (filterChanged api))))
      end
  end.

Definition handleSelect (newValue : list Suggestion) (st : State) : State :=
  applyFilters newValue (setSelected newValue st).

Definition handleInputChange (newInput : string) (st : State) : State :=
  setInputValue newInput st.

(** The chip a free text commits. *)
Definition newGlobal (inputValue : string) : Suggestion :=
  mkSuggestion "global" inputValue.

(** [suggestions] is the list the handler closes over, as are
    [inputValue st] and [selected st]. *)
Definition handleBlur (suggestions : list Suggestion) (st : State) : State :=
  if Js.truthy (inputValue st) && Nat.eqb (length suggestions) 0 then
    let updated := selected st ++ [ newGlobal (inputValue st) ] in
    applyFilters updated (setInputValue EmptyString (setSelected updated st))
  else st.

Record KeyboardEvent := mkKeyboardEvent {
  key : string;
  defaultPrevented : bool;
}.

Definition preventDefault (e : KeyboardEvent) : KeyboardEvent :=
  mkKeyboardEvent (key e) true.

(** The [onKeyDown] handler of the text field: the Enter branch, then the
    Backspace branch, both reading the values of the render ([st]). *)
Definition onKeyDown (e : KeyboardEvent) (suggestions : list Suggestion)
    (st : State) : KeyboardEvent * State :=
  let '(e1, st1) :=
    if String.eqb (key e) "Enter" && Js.truthy (inputValue st)
       && Nat.eqb (length suggestions) 0
    then
      let updated := selected st ++ [ newGlobal (inputValue st) ] in
      (preventDefault e,
       applyFilters updated (setInputValue EmptyString (setSelected updated st)))
    else (e, st) in
  if String.eqb (key e1) "Backspace" && negb (Js.truthy (inputValue st))
     && Nat.ltb 0 (length (selected st))
  then
    let updated := removelast (selected st) in
    (e1, applyFilters updated (setSelected updated st1))
  else (e1, st1).

Definition Enter : KeyboardEvent := mkKeyboardEvent "Enter" false.
Definition Backspace : KeyboardEvent := mkKeyboardEvent "Backspace" false.

(** ** The widget's props and the component's events *)

(** [groupBy]: [option.column === "global" ? "Global" : option.column] *)
Definition groupBy (option : Suggestion) : string :=
  if decide (column option = "global") then "Global" else column option.

(** [getOptionLabel], also the [stringify] of [filterOptions]. *)
Definition getOptionLabel (option : Suggestion) : string := value option.

(** [renderTags]: the [key], the [label] and the [color] of an option's
    chip. *)
Definition renderTags_key (option : Suggestion) : string :=
  column option +:+ value option.

Definition renderTags_label (option : Suggestion) : string :=
  if decide (column option = "global")
  then "Global: " +:+ value option
  else column option +:+ ": " +:+ value option.

Definition renderTags_color (option : Suggestion) : string :=
  if decide (column option = "global") then "secondary" else "primary".

(** An entry of [columnDefs]; [colFilter] is its [filter]. *)
Record ColDef := mkColDef {
  field : string;
  colFilter : string;
}.

Definition columnDefs : list ColDef :=
  [ mkColDef "ticker" "agSetColumnFilter";
    mkColDef "name" "agSetColumnFilter";
    mkColDef "sector" "agSetColumnFilter" ].

(** The events the component receives: [onChange], [onInputChange] and
    [onBlur] of the autocomplete, [onKeyDown] of the text field, and the
    grid's [filterChanged]. *)
Inductive Event :=
| OnChange (newValue : list Suggestion)
| OnInputChange (newInput : string)
| OnBlur
| OnKeyDown (e : KeyboardEvent)
| FilterChanged (nodes : list (option RowData)).

(** The handler each event is wired to, closed over the current render. *)
Definition dispatch (st : State) (ev : Event) : State :=
  match ev with
  | OnChange newValue => handleSelect newValue st
  | OnInputChange newInput => handleInputChange newInput st
  | OnBlur => handleBlur (suggestions_of st) st
  | OnKeyDown e => (onKeyDown e (suggestions_of st) st).2
  | FilterChanged nodes => listener nodes st
  end.

(** What the autocomplete does when the user chooses an option: it resets
    the input text ([onInputChange] with the empty text), then reports the
    current value followed by the option ([onChange]). *)
Definition selectNewValue (chosen : Suggestion) (st : State) : State :=
  handleSelect (selected st ++ [chosen]) (handleInputChange EmptyString st).

(** The grid, when there is one, holds the translation of the chips: the
    filter model and the two external-filter options of [selected]. *)
Definition filters_applied (st : State) : Prop :=
  ∀ api, gridApi st = Some api →
    gridFilterModel api = filterModel_of (selected st)
    ∧ gridIsExternalFilterPresent api =
        isExternalFilterPresent (globalTerms_of (selected st))
    ∧ gridDoesExternalFilterPass api =
        doesExternalFilterPass (globalTerms_of (selected st)).

(** No column of the index has an empty set. *)
Definition sets_nonempty (index : gmap string (gset string)) : Prop :=
  ∀ c values, index !! c = Some values → values ≠ ∅.

(** The suggestion test of one value: [val.toLowerCase().includes(...)]. *)
Definition matches (inputValue val : string) : bool :=
  Js.includes (Js.toLowerCase val) (Js.toLowerCase inputValue).

(** * Properties *)

(** ** Strings *)

Module JsFacts.
Import Js.

Lemma append_nil (t : string) : EmptyString +:+ t = t.
Proof. reflexivity. Qed.

Lemma append_cons (c : ascii) (s t : string) :
  String c s +:+ t = String c (s +:+ t).
Proof. reflexivity. Qed.

Lemma truthy_true (s : string) : truthy s = true ↔ s ≠ EmptyString.
Proof. destruct s; simpl; split; congruence. Qed.

Lemma truthy_false (s : string) : truthy s = false ↔ s = EmptyString.
Proof. destruct s; simpl; split; congruence. Qed.

Lemma toLowerCase_unit_idem (c : ascii) :
  toLowerCase_unit (toLowerCase_unit c) = toLowerCase_unit c.
Proof. destruct c as [[] [] [] [] [] [] [] []]; reflexivity. Qed.

Lemma toLowerCase_idem (s : string) :
  toLowerCase (toLowerCase s) = toLowerCase s.
Proof.
  induction s as [|c s IH]; simpl; [reflexivity|].
  by rewrite toLowerCase_unit_idem, IH.
Qed.

Lemma startsWith_spec (s t : string) :
  startsWith s t = true ↔ ∃ post, s = t +:+ post.
Proof.
  revert s. induction t as [|b t IH]; intros s; simpl.
  - split; [intros _; exists s; reflexivity | done].
  - destruct s as [|a s].
    + split; [done | intros [post Hpost]; discriminate].
    + destruct (Ascii.eqb_spec a b) as [->|Hab].
      * rewrite IH. split; intros [post Hpost]; exists post.
        -- by rewrite append_cons, Hpost.
        -- rewrite append_cons in Hpost. congruence.
      * split; [done | intros [post Hpost]].
        rewrite append_cons in Hpost. congruence.
Qed.

Lemma includes_spec (s t : string) :
  includes s t = true ↔ substring_of t s.
Proof.
  unfold substring_of. induction s as [|a s IH]; simpl.
  - rewrite orb_false_r, startsWith_spec. split.
    + intros [post Hpost]. exists EmptyString, post. exact Hpost.
    + intros ([|c pre] & post & Hpost); [exists post; exact Hpost | discriminate].
  - rewrite orb_true_iff, IH, startsWith_spec. split.
    + intros [[post Hpost] | (pre & post & Hpost)].
      * exists EmptyString, post. exact Hpost.
      * exists (String a pre), post. by rewrite append_cons, Hpost.
    + intros ([|c pre] & post & Hpost).
      * left. exists post. exact Hpost.
      * right. exists pre, post. rewrite append_cons in Hpost. congruence.
Qed.

(** Every string contains the empty string. *)
Lemma includes_empty (s : string) : includes s EmptyString = true.
Proof. destruct s; reflexivity. Qed.

End JsFacts.

(** ** Folds whose steps commute *)

Section FoldCommute.
Context {S A : Type} (f : S → A → S).
Hypothesis f_comm : ∀ s a b, f (f s a) b = f (f s b) a.

Lemma fold_left_step_out (l : list A) (s : S) (a : A) :
  fold_left f l (f s a) = f (fold_left f l s) a.
Proof.
  revert s. induction l as [|b l IH]; intros s; simpl; [reflexivity|].
  by rewrite f_comm, IH.
Qed.

Lemma fold_left_permutation (l l' : list A) (s : S) :
  l ≡ₚ l' → fold_left f l s = fold_left f l' s.
Proof.
  intros Hperm. revert s.
  induction Hperm as [|a l l' _ IH|a b l|l l' l'' _ IH1 _ IH2]; intros s; simpl.
  - reflexivity.
  - apply IH.
  - by rewrite f_comm.
  - by rewrite IH1, IH2.
Qed.
End FoldCommute.

(** ** Value index *)

Lemma columnValueMap_add_lookup (map : gmap string (gset string))
    (col val c : string) :
  columnValueMap_add map (col, val) !! c =
  if decide (c = col)
  then Some (default ∅ (map !! col) ∪ {[ Js.String_of val ]})
  else map !! c.
Proof.
  unfold columnValueMap_add.
  destruct (decide (c = col)) as [->|Hne].
  - destruct (map !! col) as [values|] eqn:Hcol.
    + by rewrite lookup_alter_eq, Hcol.
    + by rewrite lookup_alter_eq, lookup_insert_eq.
  - rewrite lookup_alter_ne by done.
    destruct (map !! col); [done|]. by rewrite lookup_insert_ne.
Qed.

Lemma columnValueMap_add_comm (map : gmap string (gset string))
    (e1 e2 : string * string) :
  columnValueMap_add (columnValueMap_add map e1) e2 =
  columnValueMap_add (columnValueMap_add map e2) e1.
Proof.
  destruct e1 as [c1 v1], e2 as [c2 v2]. apply map_eq. intros c.
  rewrite !columnValueMap_add_lookup.
  destruct (decide (c = c1)) as [Hc1|Hc1], (decide (c = c2)) as [Hc2|Hc2];
    subst; rewrite ?decide_True, ?decide_False by done; try done.
  simpl. f_equal. rewrite <- !(assoc_L (∪)). f_equal. apply (comm_L (∪)).
Qed.

Lemma columnValueMap_row_comm (map : gmap string (gset string))
    (r1 r2 : RowData) :
  columnValueMap_row (columnValueMap_row map r1) r2 =
  columnValueMap_row (columnValueMap_row map r2) r1.
Proof.
  unfold columnValueMap_row.
  generalize (Object_entries r1) as l1, (Object_entries r2) as l2.
  intros l1 l2. revert map. induction l1 as [|e l1 IH]; intros map; simpl.
  - reflexivity.
  - rewrite IH. f_equal.
    apply fold_left_step_out, columnValueMap_add_comm.
Qed.

Lemma index_has_empty (c v : string) : ¬ index_has ∅ c v.
Proof. intros (values & Hlook & _). by rewrite lookup_empty in Hlook. Qed.

Lemma index_has_add (map : gmap string (gset string)) (col val c v : string) :
  index_has (columnValueMap_add map (col, val)) c v ↔
  index_has map c v ∨ (c = col ∧ v = Js.String_of val).
Proof.
  unfold index_has. rewrite columnValueMap_add_lookup.
  destruct (decide (c = col)) as [->|Hne].
  - split.
    + intros (values & [= <-] & Hin).
      apply elem_of_union in Hin as [Hin|Hin%elem_of_singleton]; [left|by right].
      destruct (map !! col) as [old|]; [by exists old | set_solver].
    + intros [(values & Hlook & Hin) | [_ ->]]; eexists; (split; [done|]).
      * rewrite Hlook. set_solver.
      * set_solver.
  - split; [by left | intros [H | [? _]]; done].
Qed.

Lemma index_has_entries (entries : list (string * string))
    (map : gmap string (gset string)) (c v : string) :
  index_has (fold_left columnValueMap_add entries map) c v ↔
  index_has map c v ∨ ∃ val, (c, val) ∈ entries ∧ Js.String_of val = v.
Proof.
  revert map. induction entries as [|[col val] entries IH]; intros map;
    cbn [fold_left].
  - split; [by left | intros [H | (val & Hin & _)]; [done|]].
    by apply not_elem_of_nil in Hin.
  - rewrite IH, index_has_add. split.
    + intros [[H | [-> ->]] | (val' & Hin & Hv)].
      * by left.
      * right. exists val. split; [left | done].
      * right. exists val'. split; [by right | done].
    + intros [H | (val' & Hin & Hv)]; [by left; left|].
      apply elem_of_cons in Hin as [[= -> ->] | Hin].
      * left; right. by rewrite Hv.
      * right. by exists val'.
Qed.

Lemma index_has_rows (rows : list RowData) (map : gmap string (gset string))
    (c v : string) :
  index_has (fold_left columnValueMap_row rows map) c v ↔
  index_has map c v ∨ ∃ row, row ∈ rows ∧ has_field row c v.
Proof.
  revert map. induction rows as [|row rows IH]; intros map; cbn [fold_left].
  - split; [by left | intros [H | (row & Hin & _)]; [done|]].
    by apply not_elem_of_nil in Hin.
  - rewrite IH. unfold columnValueMap_row. rewrite index_has_entries.
    fold (has_field row c v). split.
    + intros [[H | H] | (row' & Hin & Hf)].
      * by left.
      * right. exists row. split; [left | done].
      * right. exists row'. split; [by right | done].
    + intros [H | (row' & Hin & Hf)]; [by left; left|].
      apply elem_of_cons in Hin as [-> | Hin].
      * by left; right.
      * right. by exists row'.
Qed.

(** C3: the value index built from the rows [R] has [v] in the set of column
    [c] exactly when some row of [R] has a field named [c] whose stringified
    value is [v]. *)
Theorem columnValueMap_sound_complete (R : list RowData) (c v : string) :
  index_has (columnValueMap R) c v ↔ ∃ row, row ∈ R ∧ has_field row c v.
Proof.
  unfold columnValueMap. rewrite index_has_rows. split.
  - intros [H | H]; [by apply index_has_empty in H | done].
  - by right.
Qed.

(** C9: the value index does not depend on the order of the rows: for a
    permutation [R'] of [R] the two indexes are equal as maps from column
    names to sets of strings. *)
Theorem columnValueMap_permutation (R R' : list RowData) :
  R ≡ₚ R' → columnValueMap R = columnValueMap R'.
Proof.
  intros Hperm. unfold columnValueMap.
  apply fold_left_permutation; [|done].
  intros map r1 r2. apply columnValueMap_row_comm.
Qed.

(** ** Suggestions *)

Lemma suggestions_value_elem (inputValue col : string) (vals : list string)
    (results : list Suggestion) (s : Suggestion) :
  s ∈ fold_left (suggestions_value inputValue col) vals results ↔
  s ∈ results ∨
  ∃ val, val ∈ vals
         ∧ Js.includes (Js.toLowerCase val) (Js.toLowerCase inputValue) = true
         ∧ s = mkSuggestion col val.
Proof.
  revert results. induction vals as [|val vals IH]; intros results;
    cbn [fold_left].
  - split; [by left | intros [H | (val & Hin & _)]; [done|]].
    by apply not_elem_of_nil in Hin.
  - rewrite IH. unfold suggestions_value.
    destruct (Js.includes (Js.toLowerCase val) _) eqn:Hinc.
    + rewrite elem_of_app, list_elem_of_singleton. split.
      * intros [[H | ->] | (val' & Hin & Hinc' & ->)].
        -- by left.
        -- right. exists val. split; [left | done].
        -- right. exists val'. split; [by right | done].
      * intros [H | (val' & Hin & Hinc' & ->)]; [by left; left|].
        apply elem_of_cons in Hin as [-> | Hin]; [by left; right|].
        right. by exists val'.
    + split.
      * intros [H | (val' & Hin & Hinc' & ->)]; [by left|].
        right. exists val'. split; [by right | done].
      * intros [H | (val' & Hin & Hinc' & ->)]; [by left|].
        apply elem_of_cons in Hin as [-> | Hin]; [congruence|].
        right. by exists val'.
Qed.

Lemma suggestions_column_elem (inputValue : string)
    (entries : list (string * gset string)) (results : list Suggestion)
    (s : Suggestion) :
  s ∈ fold_left (suggestions_column inputValue) entries results ↔
  s ∈ results ∨
  ∃ col values val,
    (col, values) ∈ entries ∧ val ∈ values
    ∧ Js.includes (Js.toLowerCase val) (Js.toLowerCase inputValue) = true
    ∧ s = mkSuggestion col val.
Proof.
  revert results. induction entries as [|[col values] entries IH];
    intros results; cbn [fold_left].
  - split; [by left | intros [H | (col & values & val & Hin & _)]; [done|]].
    by apply not_elem_of_nil in Hin.
  - rewrite IH. unfold suggestions_column.
    rewrite suggestions_value_elem. split.
    + intros [[H | (val & Hin & Hinc & ->)]
             | (col' & values' & val & Hin & Hval & Hinc & ->)].
      * by left.
      * right. exists col, values, val. apply elem_of_elements in Hin.
        split; [left | done].
      * right. exists col', values', val. split; [by right | done].
    + intros [H | (col' & values' & val & Hin & Hval & Hinc & ->)];
        [by left; left|].
      apply elem_of_cons in Hin as [[= -> ->] | Hin].
      * left; right. exists val. by rewrite elem_of_elements.
      * right. by exists col', values', val.
Qed.

Lemma suggestions_elem (inputValue : string) (index : gmap string (gset string))
    (s : Suggestion) :
  inputValue ≠ EmptyString →
  s ∈ suggestions inputValue index ↔
  index_has index (column s) (value s)
  ∧ Js.ci_substring_of inputValue (value s).
Proof.
  intros Hne. unfold suggestions.
  apply JsFacts.truthy_true in Hne as ->. cbn [negb].
  rewrite suggestions_column_elem. unfold Js.ci_substring_of, index_has.
  split.
  - intros [H | (col & values & val & Hin & Hval & Hinc & ->)].
    + by apply not_elem_of_nil in H.
    + apply elem_of_map_to_list in Hin. apply JsFacts.includes_spec in Hinc.
      split; [by exists values | done].
  - intros [(values & Hlook & Hval) Hsub]. right.
    exists (column s), values, (value s).
    rewrite elem_of_map_to_list, JsFacts.includes_spec. by destruct s.
Qed.

(** C4: for a non-empty input text [t] and an index [I], the suggestion list
    contains the pair [(c, v)] exactly when [c] is a key of [I], [v] is in the
    set of [c] and [v] contains [t] when case is ignored; so every returned
    suggestion's value contains [t] ignoring case and its column is a key of
    [I]. *)
Theorem suggestions_sound_complete (t : string) (I : gmap string (gset string)) :
  t ≠ EmptyString →
  (∀ c v, mkSuggestion c v ∈ suggestions t I ↔
          (∃ values, I !! c = Some values ∧ v ∈ values)
          ∧ Js.ci_substring_of t v)
  ∧ (∀ s, s ∈ suggestions t I →
          Js.ci_substring_of t (value s) ∧ is_Some (I !! column s)).
Proof.
  intros Hne. split.
  - intros c v. by rewrite suggestions_elem.
  - intros s Hs. apply suggestions_elem in Hs as [(values & Hlook & _) Hsub];
      [|done].
    split; [done | by exists values].
Qed.

(** C7: on the empty input text the suggestion list is empty, whatever the
    index. *)
Theorem suggestions_empty_input (I : gmap string (gset string)) :
  suggestions EmptyString I = [].
Proof. reflexivity. Qed.

(** ** Filter translation *)

Lemma chip_values_snoc (c : string) (filters : list Suggestion) (s : Suggestion) :
  chip_values c (filters ++ [s]) =
  chip_values c filters ++ (if decide (column s = c) then [value s] else []).
Proof.
  unfold chip_values. rewrite filter_app, fmap_app. f_equal.
  rewrite filter_cons, filter_nil. by destruct (decide (column s = c)).
Qed.

Lemma elem_of_chip_values (c v : string) (filters : list Suggestion) :
  v ∈ chip_values c filters ↔ ∃ s, s ∈ filters ∧ column s = c ∧ value s = v.
Proof.
  unfold chip_values. rewrite list_elem_of_fmap. split.
  - intros (s & -> & [Hcol Hin]%list_elem_of_filter). by exists s.
  - intros (s & Hin & Hcol & <-). exists s. by rewrite list_elem_of_filter.
Qed.

Lemma chip_values_nil_iff (c : string) (filters : list Suggestion) :
  chip_values c filters = [] ↔ ¬ ∃ s, s ∈ filters ∧ column s = c.
Proof.
  split.
  - intros Hnil (s & Hin & Hcol).
    assert (value s ∈ chip_values c filters) as Hv
      by (apply elem_of_chip_values; by exists s).
    rewrite Hnil in Hv. by apply not_elem_of_nil in Hv.
  - intros Hno. destruct (chip_values c filters) as [|v vs] eqn:Hvs; [done|].
    exfalso. apply Hno.
    assert (v ∈ chip_values c filters) as Hv by (rewrite Hvs; left).
    apply elem_of_chip_values in Hv as (s & Hin & Hcol & _). by exists s.
Qed.

Lemma applyFilters_translate_own_snoc (filters : list Suggestion) (s : Suggestion) :
  applyFilters_translate_own (filters ++ [s]) =
  applyFilters_chip_own (applyFilters_translate_own filters) s.
Proof. unfold applyFilters_translate_own. by rewrite fold_left_app. Qed.

(** The global terms are the lower-cased values of the global chips, in chip
    order. *)
Lemma globalTerms_of_eq (filters : list Suggestion) :
  globalTerms_of filters = Js.toLowerCase <$> chip_values "global" filters.
Proof.
  unfold globalTerms_of.
  induction filters as [|s filters IH] using rev_ind; [reflexivity|].
  rewrite applyFilters_translate_own_snoc, chip_values_snoc, fmap_app.
  destruct (applyFilters_translate_own filters) as [filterModel globalTerms].
  simpl in IH. subst globalTerms. unfold applyFilters_chip_own.
  destruct (decide (column s = "global")); simpl; [done|].
  by rewrite app_nil_r.
Qed.

(** The filter model has, for a column other than ["global"] with at least
    one chip, the set filter of that column's chip values, and no other
    entry. *)
Lemma filterModel_of_lookup (filters : list Suggestion) (c : string) :
  filterModel_of filters !! c =
  if decide (c = "global") then None
  else match chip_values c filters with
       | [] => None
       | vs => Some (mkSetFilter "set" vs)
       end.
Proof.
  unfold filterModel_of.
  induction filters as [|s filters IH] using rev_ind.
  - simpl. rewrite lookup_empty. by destruct (decide (c = "global")).
  - rewrite applyFilters_translate_own_snoc, chip_values_snoc.
    destruct (applyFilters_translate_own filters) as [filterModel globalTerms].
    simpl in IH. unfold applyFilters_chip_own.
    destruct (decide (column s = "global")) as [Hg|Hg]; simpl.
    + rewrite IH. destruct (decide (c = "global")) as [Hc|Hc]; [done|].
      rewrite decide_False by congruence. by rewrite app_nil_r.
    + destruct (decide (column s = c)) as [Hsc|Hsc].
      * subst c. rewrite decide_False in IH |- * by done.
        rewrite lookup_alter_eq.
        destruct (filterModel !! column s) as [f|] eqn:Hf.
        -- rewrite Hf. simpl.
           destruct (chip_values (column s) filters) as [|v vs];
             [done|]. by simplify_eq.
        -- rewrite lookup_insert_eq. simpl.
           by destruct (chip_values (column s) filters).
      * rewrite lookup_alter_ne by done. rewrite app_nil_r.
        destruct (filterModel !! column s);
          [done | by rewrite lookup_insert_ne].
Qed.

(** The loop throws exactly when some chip throws; when it completes it
    leaves the filter model and the global terms of the own-key reading. *)
Lemma applyFilters_translate_eq (filters : list Suggestion) :
  applyFilters_translate filters =
  if decide (Exists throws filters) then None
  else Some (filterModel_of filters, globalTerms_of filters).
Proof.
  unfold filterModel_of, globalTerms_of.
  induction filters as [|s filters IH] using rev_ind.
  - rewrite decide_False by (by intros ?%Exists_nil). done.
  - unfold applyFilters_translate in *. rewrite fold_left_app. cbn [fold_left].
    rewrite IH, applyFilters_translate_own_snoc. clear IH.
    destruct (decide (Exists throws filters)) as [Hbad|Hgood].
    + rewrite decide_True by (apply Exists_app; by left). done.
    + pose proof (filterModel_of_lookup filters (column s)) as Hlook.
      unfold filterModel_of in Hlook.
      destruct (applyFilters_translate_own filters) as [filterModel globalTerms].
      simpl in *. unfold applyFilters_chip_own.
      destruct (decide (column s = "global")) as [Hg|Hg].
      * rewrite decide_False; [done|].
        intros [?|Hs%Exists_cons]%Exists_app; [done|].
        destruct Hs as [[? _]|?%Exists_nil]; done.
      * destruct (decide (column s ∈ Object_prototype_keys)) as [Hp|Hp].
        -- rewrite decide_True
             by (apply Exists_app; right; by apply Exists_cons_hd).
           assert (chip_values (column s) filters = []) as Hnil.
           { apply chip_values_nil_iff. intros (s' & Hin & Hcol).
             apply Hgood, Exists_exists. exists s'. split; [done|].
             unfold throws. by rewrite Hcol. }
           rewrite Hnil in Hlook. by rewrite Hlook.
        -- rewrite decide_False.
           ++ by destruct (filterModel !! column s).
           ++ intros [?|Hs%Exists_cons]%Exists_app; [done|].
              destruct Hs as [[_ ?]|?%Exists_nil]; done.
Qed.

Lemma applyFilters_translate_Some (filters : list Suggestion)
    (filterModel : gmap string SetFilter) (globalTerms : list string) :
  applyFilters_translate filters = Some (filterModel, globalTerms) ↔
  ¬ Exists throws filters
  ∧ filterModel = filterModel_of filters ∧ globalTerms = globalTerms_of filters.
Proof.
  rewrite applyFilters_translate_eq.
  destruct (decide (Exists throws filters)); split.
  - done.
  - by intros [? _].
  - by intros [= -> ->].
  - by intros (_ & -> & ->).
Qed.



(** ** The global predicate *)

Lemma doesExternalFilterPass_spec (globalTerms : list string) (data : RowData) :
  doesExternalFilterPass globalTerms data = true ↔
  ∀ term, term ∈ globalTerms →
    ∃ val, val ∈ Object_values data
           ∧ Js.substring_of term (Js.toLowerCase (Js.String_of val)).
Proof.
  unfold doesExternalFilterPass.
  destruct globalTerms as [|t ts] eqn:Hterms.
  - simpl. split; [|done]. intros _ term Hin. by apply not_elem_of_nil in Hin.
  - rewrite <- Hterms. replace (Nat.eqb (length globalTerms) 0) with false
      by (by subst).
    rewrite forallb_forall. clear Hterms. split.
    + intros Hall term Hin%list_elem_of_In.
      apply Hall, existsb_exists in Hin as (val & Hval%list_elem_of_In & Hinc).
      exists val. by rewrite <- JsFacts.includes_spec.
    + intros Hall term Hin%list_elem_of_In.
      apply existsb_exists.
      destruct (Hall term Hin) as (val & Hval%list_elem_of_In & Hsub).
      exists val. by rewrite JsFacts.includes_spec.
Qed.

(** A term derived from a chip is in lower case already. *)
Lemma globalTerms_of_lower (filters : list Suggestion) (term : string) :
  term ∈ globalTerms_of filters → Js.toLowerCase term = term.
Proof.
  rewrite globalTerms_of_eq, list_elem_of_fmap. intros (v & -> & _).
  apply JsFacts.toLowerCase_idem.
Qed.

(** C2: for the global terms derived from the chips and every row, the global
    predicate accepts the row exactly when every term is, ignoring case, a
    substring of some stringified field value of the row; with no term it
    accepts every row. *)
Theorem doesExternalFilterPass_correct (chips : list Suggestion) (row : RowData) :
  (doesExternalFilterPass (globalTerms_of chips) row = true ↔
   ∀ term, term ∈ globalTerms_of chips →
     ∃ val, val ∈ Object_values row
            ∧ Js.ci_substring_of term (Js.String_of val))
  ∧ doesExternalFilterPass [] row = true.
Proof.
  split; [|reflexivity].
  rewrite doesExternalFilterPass_spec. unfold Js.ci_substring_of.
  split; intros Hall term Hin; destruct (Hall term Hin) as (val & Hval & Hsub);
    exists val; (split; [done|]);
    by rewrite (globalTerms_of_lower chips term Hin) in *.
Qed.

(** ** Handlers *)

Lemma length_eqb_0 {A} (l : list A) : Nat.eqb (length l) 0 = true ↔ l = [].
Proof. destruct l; cbn; split; done. Qed.

Lemma length_ltb_0 {A} (l : list A) : Nat.ltb 0 (length l) = true ↔ l ≠ [].
Proof. destruct l; cbn; split; done. Qed.

(** [applyFilters] touches the grid only. *)
Lemma applyFilters_inputValue (filters : list Suggestion) (st : State) :
  inputValue (applyFilters filters st) = inputValue st.
Proof.
  unfold applyFilters. destruct (gridApi st); [|done].
  by destruct (applyFilters_translate filters) as [[? ?]|].
Qed.

Lemma applyFilters_selected (filters : list Suggestion) (st : State) :
  selected (applyFilters filters st) = selected st.
Proof.
  unfold applyFilters. destruct (gridApi st); [|done].
  by destruct (applyFilters_translate filters) as [[? ?]|].
Qed.

(** With a grid, [applyFilters] installs the translation of its argument
    when the loop completes, and leaves the state alone when it throws. *)
Lemma applyFilters_gridApi (filters : list Suggestion) (st : State) (api : GridApi) :
  gridApi st = Some api → ¬ Exists throws filters →
  gridApi (applyFilters filters st) =
  Some (mkGridApi (filterModel_of filters)
          (isExternalFilterPresent (globalTerms_of filters))
          (doesExternalFilterPass (globalTerms_of filters))
          (S (filterChanged api))).
Proof.
  intros Hapi Hok. unfold applyFilters.
  by rewrite Hapi, applyFilters_translate_eq, decide_False.
Qed.

Lemma applyFilters_throws (filters : list Suggestion) (st : State) :
  Exists throws filters → applyFilters filters st = st.
Proof.
  intros Hbad. unfold applyFilters.
  rewrite applyFilters_translate_eq, decide_True by done.
  by destruct (gridApi st).
Qed.

(** The free-text commit fires exactly on a non-empty text without
    suggestions. *)
Lemma commit_guard (text : string) (suggestions : list Suggestion) :
  Js.truthy text && Nat.eqb (length suggestions) 0 = true ↔
  text ≠ EmptyString ∧ suggestions = [].
Proof. by rewrite andb_true_iff, JsFacts.truthy_true, length_eqb_0. Qed.

Lemma handleBlur_commit (suggestions : list Suggestion) (st : State) :
  inputValue st ≠ EmptyString → suggestions = [] →
  handleBlur suggestions st =
  applyFilters (selected st ++ [ mkSuggestion "global" (inputValue st) ])
    (setInputValue EmptyString
       (setSelected (selected st ++ [ mkSuggestion "global" (inputValue st) ]) st)).
Proof.
  intros Htext Hsugg. unfold handleBlur.
  by rewrite (proj2 (commit_guard _ _) (conj Htext Hsugg)).
Qed.

Lemma handleBlur_noop (suggestions : list Suggestion) (st : State) :
  ¬ (inputValue st ≠ EmptyString ∧ suggestions = []) →
  handleBlur suggestions st = st.
Proof.
  intros Hpre. unfold handleBlur.
  destruct (Js.truthy _ && _) eqn:Hguard; [|done].
  by apply commit_guard in Hguard.
Qed.

Lemma onKeyDown_Enter_commit (e : KeyboardEvent) (suggestions : list Suggestion)
    (st : State) :
  key e = "Enter" → inputValue st ≠ EmptyString → suggestions = [] →
  onKeyDown e suggestions st =
  (preventDefault e,
   applyFilters (selected st ++ [ mkSuggestion "global" (inputValue st) ])
     (setInputValue EmptyString
        (setSelected (selected st ++ [ mkSuggestion "global" (inputValue st) ]) st))).
Proof.
  intros Hkey Htext Hsugg. unfold onKeyDown.
  rewrite Hkey, <- andb_assoc, (proj2 (commit_guard _ _) (conj Htext Hsugg)).
  simpl. by rewrite Hkey.
Qed.

Lemma onKeyDown_Enter_noop (e : KeyboardEvent) (suggestions : list Suggestion)
    (st : State) :
  key e = "Enter" → ¬ (inputValue st ≠ EmptyString ∧ suggestions = []) →
  onKeyDown e suggestions st = (e, st).
Proof.
  intros Hkey Hpre. unfold onKeyDown. rewrite Hkey, <- andb_assoc.
  destruct (Js.truthy _ && _) eqn:Hguard; [by apply commit_guard in Hguard|].
  simpl. by rewrite Hkey.
Qed.

Lemma onKeyDown_Backspace (e : KeyboardEvent) (suggestions : list Suggestion)
    (st : State) :
  key e = "Backspace" →
  onKeyDown e suggestions st =
  (e, if negb (Js.truthy (inputValue st)) && Nat.ltb 0 (length (selected st))
      then applyFilters (removelast (selected st))
             (setSelected (removelast (selected st)) st)
      else st).
Proof.
  intros Hkey. unfold onKeyDown. rewrite Hkey. simpl.
  rewrite Hkey. simpl. by destruct (negb _ && _).
Qed.

(** C5: when the input text is non-empty and its suggestion list is empty,
    the blur handler and the Enter-key branch append the chip
    [{column: "global", value: inputValue}] to the chip sequence and clear the
    input text; otherwise they leave the state, so the chip sequence and the
    input text, as it was. *)
Theorem commitFreeText_correct (e : KeyboardEvent) (suggestions : list Suggestion)
    (st : State) :
  key e = "Enter" →
  (inputValue st ≠ EmptyString ∧ suggestions = [] →
     (selected (handleBlur suggestions st) =
        selected st ++ [ mkSuggestion "global" (inputValue st) ]
      ∧ inputValue (handleBlur suggestions st) = EmptyString)
     ∧ (selected (onKeyDown e suggestions st).2 =
          selected st ++ [ mkSuggestion "global" (inputValue st) ]
        ∧ inputValue (onKeyDown e suggestions st).2 = EmptyString))
  ∧ (¬ (inputValue st ≠ EmptyString ∧ suggestions = []) →
       handleBlur suggestions st = st ∧ (onKeyDown e suggestions st).2 = st).
Proof.
  intros Hkey. split.
  - intros [Htext Hsugg].
    rewrite handleBlur_commit, onKeyDown_Enter_commit by done. simpl.
    by rewrite applyFilters_selected, applyFilters_inputValue.
  - intros Hpre.
    by rewrite handleBlur_noop, onKeyDown_Enter_noop.
Qed.

(** C6: on Backspace, when the chip sequence is non-empty and the input text
    is empty, exactly the last chip is removed and every earlier chip stays in
    place; when the chip sequence is empty or the input text is non-empty, the
    chip sequence is unchanged. *)
Theorem backspace_removes_last (e : KeyboardEvent) (suggestions : list Suggestion)
    (st : State) :
  key e = "Backspace" →
  (selected st ≠ [] ∧ inputValue st = EmptyString →
     selected (onKeyDown e suggestions st).2 = removelast (selected st)
     ∧ ∃ last, selected st = selected (onKeyDown e suggestions st).2 ++ [last])
  ∧ (selected st = [] ∨ inputValue st ≠ EmptyString →
       selected (onKeyDown e suggestions st).2 = selected st).
Proof.
  intros Hkey. rewrite onKeyDown_Backspace by done. simpl. split.
  - intros [Hsel Htext].
    rewrite Htext, (proj2 (length_ltb_0 _) Hsel). simpl.
    rewrite applyFilters_selected. simpl. split; [done|].
    destruct (exists_last Hsel) as (front & last & Heq).
    exists last. rewrite Heq at 2. by rewrite removelast_last.
  - intros [Hsel | Htext].
    + rewrite Hsel. simpl. by rewrite andb_false_r.
    + apply JsFacts.truthy_true in Htext as ->. done.
Qed.

(** C10: the blur handler and the Enter-key handler perform the same
    free-text commit: from every state they reach the same state (the same
    chip sequence, the same input text, the same filters in the grid); when
    the commit fires both call [applyFilters] on the same chip sequence, the
    current chips followed by the new global chip, and otherwise neither
    calls it. *)
Theorem handleBlur_onKeyDown_Enter (e : KeyboardEvent)
    (suggestions : list Suggestion) (st : State) :
  key e = "Enter" →
  handleBlur suggestions st = (onKeyDown e suggestions st).2
  ∧ (inputValue st ≠ EmptyString ∧ suggestions = [] →
       handleBlur suggestions st =
         applyFilters (selected st ++ [ mkSuggestion "global" (inputValue st) ])
           (setInputValue EmptyString
              (setSelected
                 (selected st ++ [ mkSuggestion "global" (inputValue st) ]) st))
       ∧ (onKeyDown e suggestions st).2 =
         applyFilters (selected st ++ [ mkSuggestion "global" (inputValue st) ])
           (setInputValue EmptyString
              (setSelected
                 (selected st ++ [ mkSuggestion "global" (inputValue st) ]) st)))
  ∧ (¬ (inputValue st ≠ EmptyString ∧ suggestions = []) →
       handleBlur suggestions st = st ∧ (onKeyDown e suggestions st).2 = st).
Proof.
  intros Hkey.
  assert (∀ P : Prop, Decision P → P ∨ ¬ P) as Hdec
    by (intros P [HP|HP]; auto).
  split; [|split].
  - destruct (Hdec (inputValue st ≠ EmptyString ∧ suggestions = []) _)
      as [[Htext Hsugg] | Hpre].
    + by rewrite handleBlur_commit, onKeyDown_Enter_commit.
    + by rewrite handleBlur_noop, onKeyDown_Enter_noop.
  - intros [Htext Hsugg].
    by rewrite handleBlur_commit, onKeyDown_Enter_commit.
  - intros Hpre. by rewrite handleBlur_noop, onKeyDown_Enter_noop.
Qed.

(** ** Selection *)

Lemma handleSelect_selected (newValue : list Suggestion) (st : State) :
  selected (handleSelect newValue st) = newValue.
Proof. unfold handleSelect. by rewrite applyFilters_selected. Qed.

Lemma handleSelect_inputValue (newValue : list Suggestion) (st : State) :
  inputValue (handleSelect newValue st) = inputValue st.
Proof. unfold handleSelect. by rewrite applyFilters_inputValue. Qed.

(** On its own [handleSelect] leaves the input text as it is, whatever
    sequence it is given. *)
Lemma handleSelect_keeps_input_text :
  ¬ ∃ newValue : list Suggestion,
      selected (handleSelect newValue (mkState "tech" [] rowData None)) =
        selected (mkState "tech" [] rowData None) ++ [ mkSuggestion "sector" "Tech" ]
      ∧ inputValue (handleSelect newValue (mkState "tech" [] rowData None)) =
        EmptyString.
Proof.
  intros (newValue & _ & Hinput).
  rewrite handleSelect_inputValue in Hinput. discriminate.
Qed.

(** [handleSelect] replaces the chip sequence by the sequence it is given and
    leaves the input text; [handleInputChange] sets the input text and leaves
    the chips. *)
Theorem handleSelect_replaces (newValue : list Suggestion) (newInput : string)
    (chosen : Suggestion) (st : State) :
  (selected (handleSelect newValue st) = newValue
   ∧ inputValue (handleSelect newValue st) = inputValue st)
  ∧ (selected (handleInputChange newInput st) = selected st
     ∧ inputValue (handleInputChange newInput st) = newInput)
  ∧ (selected (handleSelect (selected st ++ [chosen]) st) = selected st ++ [chosen]
     ∧ selected (handleInputChange EmptyString
                   (handleSelect (selected st ++ [chosen]) st)) =
         selected st ++ [chosen]
     ∧ inputValue (handleInputChange EmptyString
                     (handleSelect (selected st ++ [chosen]) st)) = EmptyString).
Proof.
  split; [|split; [done|]].
  - by rewrite handleSelect_selected, handleSelect_inputValue.
  - split; [apply handleSelect_selected|]. simpl.
    by rewrite handleSelect_selected.
Qed.

(** C8: for every current chip sequence and every chosen suggestion, the
    select operation, in which the autocomplete resets the input text through
    [handleInputChange] and reports the chips followed by the chosen
    suggestion to [handleSelect], appends the chosen suggestion to the chip
    sequence and clears the current input text. *)
Theorem selectNewValue_appends_and_clears (chosen : Suggestion) (st : State) :
  selected (selectNewValue chosen st) = selected st ++ [chosen]
  ∧ inputValue (selectNewValue chosen st) = EmptyString.
Proof.
  unfold selectNewValue.
  by rewrite handleSelect_selected, handleSelect_inputValue.
Qed.

(** ** The properties on the component's own data *)

(** The sample rows [AAPL] and [Ford], swapped, give the same index. *)
Lemma columnValueMap_permutation_witness :
  columnValueMap [ mkRowData "AAPL" "Apple Inc." "Tech"; mkRowData "F" "Ford" "Auto" ] =
  columnValueMap [ mkRowData "F" "Ford" "Auto"; mkRowData "AAPL" "Apple Inc." "Tech" ].
Proof. apply columnValueMap_permutation. apply perm_swap. Defined.

(** On the input ["tech"] the suggestion [sector: Tech] is offered exactly
    because ["Tech"] is a sector of the sample rows and contains ["tech"]. *)
Lemma suggestions_sound_complete_witness :
  "tech" ≠ EmptyString
  ∧ (mkSuggestion "sector" "Tech" ∈ suggestions "tech" (columnValueMap rowData) ↔
     (∃ values, columnValueMap rowData !! "sector" = Some values ∧ "Tech" ∈ values)
     ∧ Js.ci_substring_of "tech" "Tech").
Proof.
  split; [discriminate|].
  apply (suggestions_sound_complete "tech" (columnValueMap rowData)).
  discriminate.
Defined.


(** The chip [global: Ford] accepts the row [Ford]. *)
Lemma doesExternalFilterPass_correct_witness :
  doesExternalFilterPass (globalTerms_of [ mkSuggestion "global" "Ford" ])
    (mkRowData "F" "Ford" "Auto") = true
  ∧ ∀ term, term ∈ globalTerms_of [ mkSuggestion "global" "Ford" ] →
      ∃ val, val ∈ Object_values (mkRowData "F" "Ford" "Auto")
             ∧ Js.ci_substring_of term (Js.String_of val).
Proof.
  split; [reflexivity|].
  apply (doesExternalFilterPass_correct [ mkSuggestion "global" "Ford" ]
           (mkRowData "F" "Ford" "Auto")).
  reflexivity.
Defined.

(** Blur and Enter on the text ["xyz"], which has no suggestion, commit the
    chip [global: xyz]. *)
Lemma commitFreeText_correct_witness :
  (selected (handleBlur [] (mkState "xyz" [] rowData None)) =
     [ mkSuggestion "global" "xyz" ]
   ∧ inputValue (handleBlur [] (mkState "xyz" [] rowData None)) = EmptyString)
  ∧ (selected (onKeyDown Enter [] (mkState "xyz" [] rowData None)).2 =
       [ mkSuggestion "global" "xyz" ]
     ∧ inputValue (onKeyDown Enter [] (mkState "xyz" [] rowData None)).2 =
       EmptyString).
Proof.
  apply (commitFreeText_correct Enter [] (mkState "xyz" [] rowData None)).
  - reflexivity.
  - split; [discriminate | reflexivity].
Defined.

(** Backspace on the empty text with the chips [A, B] leaves [A]. *)
Lemma backspace_removes_last_witness :
  selected (onKeyDown Backspace []
              (mkState EmptyString
                 [ mkSuggestion "ticker" "AAPL"; mkSuggestion "sector" "Auto" ]
                 rowData None)).2 =
    [ mkSuggestion "ticker" "AAPL" ]
  ∧ ∃ last,
      [ mkSuggestion "ticker" "AAPL"; mkSuggestion "sector" "Auto" ] =
      selected (onKeyDown Backspace []
                  (mkState EmptyString
                     [ mkSuggestion "ticker" "AAPL"; mkSuggestion "sector" "Auto" ]
                     rowData None)).2 ++ [last].
Proof.
  apply (backspace_removes_last Backspace []
           (mkState EmptyString
              [ mkSuggestion "ticker" "AAPL"; mkSuggestion "sector" "Auto" ]
              rowData None)).
  - reflexivity.
  - split; [discriminate | reflexivity].
Defined.

(** Blur and Enter on the text ["xyz"] reach the same state. *)
Lemma handleBlur_onKeyDown_Enter_witness :
  handleBlur [] (mkState "xyz" [] rowData None) =
  (onKeyDown Enter [] (mkState "xyz" [] rowData None)).2.
Proof.
  exact (proj1 (handleBlur_onKeyDown_Enter Enter []
                  (mkState "xyz" [] rowData None) eq_refl)).
Defined.

(** ** Scenarios *)

(** The input ["tech"] against the sectors of the sample rows suggests
    [sector: Tech] only; choosing it and the widget's reset of the text give
    the chip store [[sector: Tech]] and an empty input text. *)
Example scenario_tech :
  suggestions "tech" {[ "sector" := {[ "Tech"; "Auto"; "Finance" ]} ]} =
    [ mkSuggestion "sector" "Tech" ]
  ∧ selected (handleInputChange EmptyString
                (handleSelect [ mkSuggestion "sector" "Tech" ]
                   (mkState "tech" [] rowData None))) =
    [ mkSuggestion "sector" "Tech" ]
  ∧ inputValue (handleInputChange EmptyString
                  (handleSelect [ mkSuggestion "sector" "Tech" ]
                     (mkState "tech" [] rowData None))) = EmptyString.
Proof. vm_compute. done. Qed.

(** The chips [sector: Tech] and [global: ford] translate to the column filter
    [{sector: {Tech}}] and the terms [["ford"]]; the row [AAPL] fails the term
    and the row [Ford] passes it. *)
Example scenario_round_trip :
  filterModel_of [ mkSuggestion "sector" "Tech"; mkSuggestion "global" "ford" ] =
    {[ "sector" := mkSetFilter "set" [ "Tech" ] ]}
  ∧ globalTerms_of [ mkSuggestion "sector" "Tech"; mkSuggestion "global" "ford" ] =
    [ "ford" ]
  ∧ doesExternalFilterPass [ "ford" ] (mkRowData "AAPL" "Apple Inc." "Tech") = false
  ∧ doesExternalFilterPass [ "ford" ] (mkRowData "F" "Ford" "Auto") = true.
Proof. vm_compute. done. Qed.

(** * Further properties of the component *)

(** ** The value index as a map *)

Lemma index_has_columnValueMap (R : list RowData) (c v : string) :
  index_has (columnValueMap R) c v ↔ ∃ row, row ∈ R ∧ has_field row c v.
Proof.
  unfold columnValueMap. rewrite index_has_rows. split; [|by right].
  intros [H | H]; [by apply index_has_empty in H | done].
Qed.

Lemma columnValueMap_add_nonempty (map : gmap string (gset string))
    (entry : string * string) :
  sets_nonempty map → sets_nonempty (columnValueMap_add map entry).
Proof.
  destruct entry as [col val]. intros Hmap c values.
  rewrite columnValueMap_add_lookup.
  destruct (decide (c = col)) as [->|Hne]; [|apply Hmap].
  intros [= <-]. set_solver.
Qed.

Lemma columnValueMap_nonempty (R : list RowData) :
  sets_nonempty (columnValueMap R).
Proof.
  unfold columnValueMap.
  assert (sets_nonempty (∅ : gmap string (gset string))) as Hinit
    by (intros c values Hlook; by rewrite lookup_empty in Hlook).
  revert Hinit. generalize (∅ : gmap string (gset string)) as map.
  induction R as [|row R IH]; intros map Hmap; cbn [fold_left]; [done|].
  apply IH. unfold columnValueMap_row.
  revert map Hmap. induction (Object_entries row) as [|e es IHe];
    intros map Hmap; cbn [fold_left]; [done|].
  by apply IHe, columnValueMap_add_nonempty.
Qed.

(** Two indexes without empty sets that hold the same values are equal. *)
Lemma index_ext (m1 m2 : gmap string (gset string)) :
  sets_nonempty m1 → sets_nonempty m2 →
  (∀ c v, index_has m1 c v ↔ index_has m2 c v) → m1 = m2.
Proof.
  intros Hne1 Hne2 Hsame. apply map_eq. intros c.
  assert (∀ (ma mb : gmap string (gset string)) values,
            sets_nonempty ma → (∀ v, index_has ma c v → index_has mb c v) →
            ma !! c = Some values → is_Some (mb !! c)) as Hsome.
  { intros ma mb values Hne Hsub Hlook.
    destruct (set_choose_L values (Hne _ _ Hlook)) as [v Hv].
    destruct (Hsub v) as (values' & Hlook' & _); [by exists values|].
    by exists values'. }
  destruct (m1 !! c) as [s1|] eqn:H1, (m2 !! c) as [s2|] eqn:H2.
  - f_equal. apply set_eq. intros v. split; intros Hv.
    + destruct (proj1 (Hsame c v)) as (s & Hs & Hin); [by exists s1|].
      by simplify_eq.
    + destruct (proj2 (Hsame c v)) as (s & Hs & Hin); [by exists s2|].
      by simplify_eq.
  - destruct (Hsome m1 m2 s1 Hne1) as [s Hs]; [apply Hsame | done|].
    by rewrite H2 in Hs.
  - destruct (Hsome m2 m1 s2 Hne2) as [s Hs]; [apply Hsame | done|].
    by rewrite H1 in Hs.
  - done.
Qed.

(** X1: the value index depends on the set of rows only: two row sequences
    with the same members, in any order and with any repetition, give the
    same index. *)
Theorem columnValueMap_same_rows (R R' : list RowData) :
  (∀ row, row ∈ R ↔ row ∈ R') → columnValueMap R = columnValueMap R'.
Proof.
  intros Hsame. apply index_ext; try apply columnValueMap_nonempty.
  intros c v. rewrite !index_has_columnValueMap.
  split; intros (row & Hin & Hfield); exists row; by rewrite ?Hsame in *.
Qed.

(** X2: no rows give the empty index; any row at all gives an index whose
    keys are exactly the three fields of a row; and no key ever has an empty
    set. *)
Theorem columnValueMap_keys (R : list RowData) :
  columnValueMap [] = ∅
  ∧ (R ≠ [] → dom (columnValueMap R) = {[ "ticker"; "name"; "sector" ]})
  ∧ (∀ c values, columnValueMap R !! c = Some values → values ≠ ∅).
Proof.
  split; [done|]. split; [|apply columnValueMap_nonempty].
  intros HR. apply set_eq. intros c. rewrite elem_of_dom. split.
  - intros [values Hlook].
    destruct (set_choose_L values (columnValueMap_nonempty R _ _ Hlook))
      as [v Hv].
    assert (index_has (columnValueMap R) c v) as Hhas by (by exists values).
    apply index_has_columnValueMap in Hhas
      as (row & _ & val & Hentry & _).
    unfold Object_entries in Hentry.
    rewrite !elem_of_cons, elem_of_nil in Hentry.
    destruct Hentry as [[= -> _]|[[= -> _]|[[= -> _]|[]]]];
      rewrite !elem_of_union, !elem_of_singleton; auto.
  - intros Hc. destruct R as [|row R]; [done|].
    assert (∃ v, has_field row c v) as [v Hfield].
    { unfold has_field, Object_entries, Js.String_of.
      rewrite !elem_of_union, !elem_of_singleton in Hc.
      destruct Hc as [[-> | ->] | ->].
      - exists (ticker row), (ticker row). split; [left | done].
      - exists (name row), (name row). split; [right; left | done].
      - exists (sector row), (sector row). split; [right; right; left | done]. }
    destruct (proj2 (index_has_columnValueMap (row :: R) c v))
      as (values & Hlook & _); [exists row; split; [left | done]|].
    by exists values.
Qed.

(** X3: the index of two row sequences put together is the union of their
    indexes, column by column. *)
Theorem columnValueMap_app (R1 R2 : list RowData) :
  columnValueMap (R1 ++ R2) =
  union_with (λ s1 s2, Some (s1 ∪ s2)) (columnValueMap R1) (columnValueMap R2).
Proof.
  assert (∀ c v,
    index_has (union_with (λ s1 s2 : gset string, Some (s1 ∪ s2))
                 (columnValueMap R1) (columnValueMap R2)) c v ↔
    index_has (columnValueMap R1) c v ∨ index_has (columnValueMap R2) c v)
    as Hunion.
  { intros c v. unfold index_has. rewrite lookup_union_with.
    destruct (columnValueMap R1 !! c) as [s1|],
             (columnValueMap R2 !! c) as [s2|]; simpl.
    - split.
      + intros (s & [= <-] & [Hv|Hv]%elem_of_union); [left|right]; eauto.
      + intros [(s & [= <-] & Hv) | (s & [= <-] & Hv)];
          eexists; (split; [done|]); set_solver.
    - split; [by left | intros [H | (s & Hs & _)]; done].
    - split; [by right | intros [(s & Hs & _) | H]; done].
    - split; [intros (s & Hs & _); done | intros [(s & Hs & _) | (s & Hs & _)]; done]. }
  apply index_ext.
  - apply columnValueMap_nonempty.
  - intros c values. rewrite lookup_union_with.
    pose proof (columnValueMap_nonempty R1 c) as H1.
    pose proof (columnValueMap_nonempty R2 c) as H2.
    destruct (columnValueMap R1 !! c) as [s1|],
             (columnValueMap R2 !! c) as [s2|]; simpl; intros [= <-].
    + intros [Hs1 _]%empty_union_L. by apply (H1 s1).
    + by apply H1.
    + by apply H2.
  - intros c v. rewrite Hunion, !index_has_columnValueMap. split.
    + intros (row & [Hin|Hin]%elem_of_app & Hfield); [left|right];
        by exists row.
    + intros [(row & Hin & Hfield) | (row & Hin & Hfield)]; exists row;
        rewrite elem_of_app; auto.
Qed.

(** ** The suggestion list as a whole *)

Lemma fold_left_ext {S A} (f g : S → A → S) (l : list A) (s : S) :
  (∀ s a, f s a = g s a) → fold_left f l s = fold_left g l s.
Proof.
  intros Hfg. revert s. induction l as [|a l IH]; intros s; simpl; [done|].
  by rewrite Hfg, IH.
Qed.

Lemma string_app_assoc (s1 s2 s3 : string) :
  (s1 +:+ s2) +:+ s3 = s1 +:+ (s2 +:+ s3).
Proof.
  induction s1 as [|c s1 IH]; [done|].
  by rewrite !JsFacts.append_cons, IH.
Qed.

Lemma substring_of_trans (s1 s2 s3 : string) :
  Js.substring_of s1 s2 → Js.substring_of s2 s3 → Js.substring_of s1 s3.
Proof.
  intros (pre1 & post1 & ->) (pre2 & post2 & ->).
  exists (pre2 +:+ pre1), (post1 +:+ post2).
  by rewrite !string_app_assoc.
Qed.

(** The suggestions of one column's values, appended to the results. *)
Lemma suggestions_value_fold (inputValue col : string) (vals : list string)
    (results : list Suggestion) :
  fold_left (suggestions_value inputValue col) vals results =
  results ++ (mkSuggestion col <$> filter (λ val, matches inputValue val = true) vals).
Proof.
  revert results. induction vals as [|val vals IH]; intros results;
    cbn [fold_left].
  - by rewrite filter_nil, app_nil_r.
  - rewrite IH, filter_cons. unfold suggestions_value. fold (matches inputValue val).
    destruct (matches inputValue val) eqn:Hm.
    + rewrite decide_True by done. by rewrite fmap_cons, <- app_assoc.
    + by rewrite decide_False by done.
Qed.

Lemma suggestions_column_fold (inputValue : string)
    (entries : list (string * gset string)) (results : list Suggestion) :
  fold_left (suggestions_column inputValue) entries results =
  results ++
  (entries ≫= λ entry,
     mkSuggestion entry.1 <$>
       filter (λ val, matches inputValue val = true) (elements entry.2)).
Proof.
  revert results. induction entries as [|[col values] entries IH];
    intros results; cbn [fold_left].
  - by rewrite app_nil_r.
  - rewrite IH. unfold suggestions_column. rewrite suggestions_value_fold.
    by rewrite bind_cons, <- app_assoc.
Qed.

Lemma suggestions_columns_NoDup (inputValue : string)
    (entries : list (string * gset string)) :
  NoDup entries.*1 →
  NoDup (entries ≫= λ entry,
           mkSuggestion entry.1 <$>
             filter (λ val, matches inputValue val = true) (elements entry.2)).
Proof.
  induction entries as [|[col values] entries IH]; [constructor|].
  rewrite fmap_cons, NoDup_cons, bind_cons. intros [Hcol Hrest].
  apply NoDup_app. split; [|split; [|by apply IH]].
  - apply NoDup_fmap_2; [by intros v1 v2 [= ->]|].
    apply NoDup_filter, NoDup_elements.
  - intros s (val & -> & _)%list_elem_of_fmap
             ([col' values'] & (val' & [= <- _] & _)%list_elem_of_fmap & Hin)%list_elem_of_bind.
    apply Hcol. apply list_elem_of_fmap. by exists (col, values').
Qed.

(** X4: the suggestion list never offers the same pair of column and value
    twice. *)
Theorem suggestions_NoDup (t : string) (I : gmap string (gset string)) :
  NoDup (suggestions t I).
Proof.
  unfold suggestions. destruct (negb (Js.truthy t)); [constructor|].
  rewrite suggestions_column_fold. simpl.
  apply suggestions_columns_NoDup, NoDup_fst_map_to_list.
Qed.

(** X5: the suggestion list does not depend on the case of the input text:
    two texts equal in lower case give the same list. *)
Theorem suggestions_input_case (t t' : string) (I : gmap string (gset string)) :
  Js.toLowerCase t = Js.toLowerCase t' → suggestions t I = suggestions t' I.
Proof.
  intros Hlow. unfold suggestions.
  assert (Js.truthy t = Js.truthy t') as ->
    by (destruct t, t'; simpl in *; congruence).
  destruct (negb (Js.truthy t')); [done|].
  apply fold_left_ext. intros results [col values]. simpl.
  apply fold_left_ext. intros results' val.
  unfold suggestions_value. by rewrite Hlow.
Qed.

(** X6: typing on narrows the list: when the non-empty text [t] occurs in the
    text [t'], case ignored, every suggestion for [t'] is a suggestion for
    [t]. *)
Theorem suggestions_narrow (t t' : string) (I : gmap string (gset string))
    (s : Suggestion) :
  t ≠ EmptyString → Js.ci_substring_of t t' →
  s ∈ suggestions t' I → s ∈ suggestions t I.
Proof.
  intros Ht Hsub Hs.
  assert (t' ≠ EmptyString) as Ht'.
  { intros ->. by apply not_elem_of_nil in Hs. }
  apply suggestions_elem in Hs as [Hhas Hs]; [|done].
  apply suggestions_elem; [done|]. split; [done|].
  by apply (substring_of_trans _ (Js.toLowerCase t')).
Qed.

(** X7: a suggestion computed from rows names one of the grid's columns,
    never ["global"], so it is grouped under its column, and its value is the
    value of that field in one of the rows. *)
Theorem suggestions_of_rows (t : string) (R : list RowData) (s : Suggestion) :
  s ∈ suggestions t (columnValueMap R) →
  (∃ d, d ∈ columnDefs ∧ field d = column s)
  ∧ column s ≠ "global"
  ∧ groupBy s = column s
  ∧ ∃ row, row ∈ R ∧ has_field row (column s) (value s).
Proof.
  intros Hs.
  assert (t ≠ EmptyString) as Ht.
  { intros ->. by apply not_elem_of_nil in Hs. }
  apply suggestions_elem in Hs as [Hhas _]; [|done].
  apply index_has_columnValueMap in Hhas as (row & Hrow & Hfield).
  assert (column s = "ticker" ∨ column s = "name" ∨ column s = "sector")
    as Hcol.
  { destruct Hfield as (val & Hentry & _). unfold Object_entries in Hentry.
    rewrite !elem_of_cons, elem_of_nil in Hentry.
    destruct Hentry as [[= -> _]|[[= -> _]|[[= -> _]|[]]]]; auto. }
  assert (column s ≠ "global") as Hglobal
    by (destruct Hcol as [-> | [-> | ->]]; discriminate).
  split; [|split; [done|split]].
  - unfold columnDefs. destruct Hcol as [-> | [-> | ->]].
    + exists (mkColDef "ticker" "agSetColumnFilter"). split; [left | done].
    + exists (mkColDef "name" "agSetColumnFilter").
      split; [right; left | done].
    + exists (mkColDef "sector" "agSetColumnFilter").
      split; [right; right; left | done].
  - unfold groupBy. by rewrite decide_False.
  - by exists row.
Qed.

(** ** The filter translation as a whole *)

Lemma chip_values_app (c : string) (a b : list Suggestion) :
  chip_values c (a ++ b) = chip_values c a ++ chip_values c b.
Proof. unfold chip_values. by rewrite filter_app, fmap_app. Qed.

Lemma chip_values_filter (c : string) (P : Suggestion → Prop)
    `{∀ s, Decision (P s)} (filters : list Suggestion) :
  (∀ s, column s = c → P s) →
  chip_values c (filter P filters) = chip_values c filters.
Proof.
  intros HP. unfold chip_values. f_equal.
  induction filters as [|s filters IH]; [done|].
  rewrite (filter_cons P). destruct (decide (P s)) as [Hs|Hs].
  - rewrite !filter_cons. destruct (decide (column s = c)); by rewrite IH.
  - rewrite IH, (filter_cons (λ s, column s = c)).
    rewrite decide_False; [done|]. intros Hc. by apply Hs, HP.
Qed.

Lemma chip_values_filter_other (c : string) (P : Suggestion → Prop)
    `{∀ s, Decision (P s)} (filters : list Suggestion) :
  (∀ s, column s = c → ¬ P s) → chip_values c (filter P filters) = [].
Proof.
  intros HP. apply chip_values_nil_iff.
  intros (s & [Hs _]%list_elem_of_filter & Hc). by apply (HP s).
Qed.

Lemma filterModel_of_filter (filters : list Suggestion) :
  filterModel_of (filter (λ s, column s ≠ "global") filters) =
    filterModel_of filters
  ∧ filterModel_of (filter (λ s, column s = "global") filters) = ∅.
Proof.
  split; apply map_eq; intros c; rewrite !filterModel_of_lookup, ?lookup_empty;
    destruct (decide (c = "global")); try done.
  - rewrite chip_values_filter; [done|]. by intros s ->.
  - rewrite chip_values_filter_other; [done|]. by intros s ->.
Qed.

Lemma globalTerms_of_filter (filters : list Suggestion) :
  globalTerms_of (filter (λ s, column s = "global") filters) =
    globalTerms_of filters
  ∧ globalTerms_of (filter (λ s, column s ≠ "global") filters) = [].
Proof.
  rewrite !globalTerms_of_eq. split.
  - by rewrite chip_values_filter.
  - rewrite chip_values_filter_other; [done|]. intros s Hs Hne. by apply Hne.
Qed.

Lemma throws_sublist (P : Suggestion → Prop) `{∀ s, Decision (P s)}
    (filters : list Suggestion) :
  ¬ Exists throws filters → ¬ Exists throws (filter P filters).
Proof.
  intros Hok (s & [_ Hin]%list_elem_of_filter & Hs)%Exists_exists.
  apply Hok, Exists_exists. by exists s.
Qed.

(** X8: when the translation completes, every entry of its filter model
    belongs to a column other than ["global"] that is no inherited member,
    has [filterType] ["set"], and its values are the values of that column's
    chips, in chip order, of which there is at least one. *)
Theorem filterModel_of_entry (filters : list Suggestion)
    (filterModel : gmap string SetFilter) (globalTerms : list string)
    (c : string) (f : SetFilter) :
  applyFilters_translate filters = Some (filterModel, globalTerms) →
  filterModel !! c = Some f →
  c ≠ "global"
  ∧ (c ∉ Object_prototype_keys)
  ∧ filterType f = "set"
  ∧ values f = map value (filter (λ s, column s = c) filters)
  ∧ values f ≠ [].
Proof.
  intros (Hok & -> & _)%applyFilters_translate_Some.
  rewrite filterModel_of_lookup.
  destruct (decide (c = "global")) as [|Hc]; [done|].
  fold (chip_values c filters).
  destruct (chip_values c filters) as [|v vs] eqn:Hvs; [done|].
  intros [= <-]. split; [done|]. split; [|done].
  intros Hp. apply Hok, Exists_exists.
  assert (v ∈ chip_values c filters) as Hv by (rewrite Hvs; left).
  apply elem_of_chip_values in Hv as (s & Hin & Hcol & _).
  exists s. split; [done|]. unfold throws. by rewrite Hcol.
Qed.

(** X9: the two halves of a translation that completes are independent:
    the column chips alone translate to its filter model and no term, the
    global chips alone to the empty filter model and its terms. *)
Theorem applyFilters_translate_split (filters : list Suggestion)
    (filterModel : gmap string SetFilter) (globalTerms : list string) :
  applyFilters_translate filters = Some (filterModel, globalTerms) →
  applyFilters_translate (filter (λ s, column s ≠ "global") filters) =
    Some (filterModel, [])
  ∧ applyFilters_translate (filter (λ s, column s = "global") filters) =
    Some (∅, globalTerms).
Proof.
  intros (Hok & -> & ->)%applyFilters_translate_Some.
  destruct (filterModel_of_filter filters) as [Hf1 Hf2].
  destruct (globalTerms_of_filter filters) as [Hg1 Hg2].
  split; apply applyFilters_translate_Some;
    (split; [by apply throws_sublist|]); by rewrite ?Hf1, ?Hf2, ?Hg1, ?Hg2.
Qed.

(** X10: when two chip sequences both translate, the two put together
    translate to the concatenation of their global terms and, column by
    column, of their accepted values. *)
Theorem applyFilters_translate_app (a b : list Suggestion)
    (fa fb : gmap string SetFilter) (ga gb : list string) :
  applyFilters_translate a = Some (fa, ga) →
  applyFilters_translate b = Some (fb, gb) →
  applyFilters_translate (a ++ b) =
  Some (union_with (λ f g, Some (mkSetFilter (filterType f) (values f ++ values g)))
          fa fb,
        ga ++ gb).
Proof.
  intros (Ha & -> & ->)%applyFilters_translate_Some
         (Hb & -> & ->)%applyFilters_translate_Some.
  apply applyFilters_translate_Some. split; [|split].
  - by intros [?|?]%Exists_app.
  - apply map_eq. intros c.
    rewrite lookup_union_with, !filterModel_of_lookup, chip_values_app.
    destruct (decide (c = "global")); [done|].
    destruct (chip_values c a) as [|va vsa], (chip_values c b) as [|vb vsb];
      simpl; try done.
    by rewrite app_nil_r.
  - by rewrite !globalTerms_of_eq, chip_values_app, fmap_app.
Qed.

(** ** The external filter *)

Lemma doesExternalFilterPass_forallb (globalTerms : list string) (data : RowData) :
  doesExternalFilterPass globalTerms data =
  forallb (λ term, existsb (λ val, Js.includes (Js.toLowerCase (Js.String_of val)) term)
                     (Object_values data))
          globalTerms.
Proof. unfold doesExternalFilterPass. by destruct globalTerms. Qed.

(** X11: the grid is told that an external filter is present exactly when
    some chip is global; when it is told there is none, the predicate would
    accept every row anyway. *)
Theorem isExternalFilterPresent_correct (filters : list Suggestion) :
  (isExternalFilterPresent (globalTerms_of filters) () = true ↔
   ∃ s, s ∈ filters ∧ column s = "global")
  ∧ (isExternalFilterPresent (globalTerms_of filters) () = false →
     ∀ row, doesExternalFilterPass (globalTerms_of filters) row = true).
Proof.
  unfold isExternalFilterPresent. split.
  - rewrite length_ltb_0, globalTerms_of_eq. split.
    + intros Hne.
      destruct (chip_values "global" filters) as [|v vs] eqn:Hvs; [done|].
      assert (v ∈ chip_values "global" filters) as Hv by (rewrite Hvs; left).
      apply elem_of_chip_values in Hv as (s & Hin & Hcol & _). by exists s.
    + intros (s & Hin & Hcol).
      assert (value s ∈ chip_values "global" filters) as Hv
        by (apply elem_of_chip_values; by exists s).
      destruct (chip_values "global" filters); [|done].
      by apply not_elem_of_nil in Hv.
  - intros Hno row. unfold doesExternalFilterPass.
    by destruct (globalTerms_of filters).
Qed.

(** X12: the terms are conjoined: a row passes two term lists put together
    exactly when it passes each of them, so a further term never lets a
    rejected row through. *)
Theorem doesExternalFilterPass_app (terms1 terms2 : list string) (row : RowData) :
  doesExternalFilterPass (terms1 ++ terms2) row =
  doesExternalFilterPass terms1 row && doesExternalFilterPass terms2 row.
Proof. rewrite !doesExternalFilterPass_forallb. apply forallb_app. Qed.

(** X13: an empty term restricts nothing: a row passes with it exactly when
    it passes without it. *)
Theorem doesExternalFilterPass_empty_term (terms : list string) (row : RowData) :
  doesExternalFilterPass (EmptyString :: terms) row =
  doesExternalFilterPass terms row.
Proof.
  rewrite !doesExternalFilterPass_forallb. cbn [forallb Object_values existsb].
  by rewrite JsFacts.includes_empty.
Qed.

(** ** Applying filters to the grid *)

Lemma applyFilters_availableRows (filters : list Suggestion) (st : State) :
  availableRows (applyFilters filters st) = availableRows st.
Proof.
  unfold applyFilters. destruct (gridApi st); [|done].
  by destruct (applyFilters_translate filters) as [[? ?]|].
Qed.

Lemma applyFilters_no_grid (filters : list Suggestion) (st : State) :
  gridApi st = None → applyFilters filters st = st.
Proof. intros Hapi. unfold applyFilters. by rewrite Hapi. Qed.

Lemma applyFilters_applied (filters : list Suggestion) (st : State) :
  selected st = filters → ¬ Exists throws filters →
  filters_applied (applyFilters filters st).
Proof.
  intros Hsel Hok api'. rewrite applyFilters_selected, Hsel.
  destruct (gridApi st) as [api|] eqn:Hapi.
  - rewrite (applyFilters_gridApi filters st api Hapi Hok). by intros [= <-].
  - by rewrite applyFilters_no_grid, Hapi.
Qed.

Lemma applyFilters_is_Some (filters : list Suggestion) (st : State) :
  is_Some (gridApi (applyFilters filters st)) ↔ is_Some (gridApi st).
Proof.
  unfold applyFilters. destruct (gridApi st) as [api|] eqn:Hapi; [|by rewrite Hapi].
  destruct (applyFilters_translate filters) as [[? ?]|]; simpl;
    rewrite ?Hapi; split; eauto.
Qed.

(** X14: applying filters touches the grid only: the input text, the chips
    and the rows stay as they were, a grid is neither created nor lost, and
    without a grid nothing happens at all. *)
Theorem applyFilters_frame (filters : list Suggestion) (st : State) :
  inputValue (applyFilters filters st) = inputValue st
  ∧ selected (applyFilters filters st) = selected st
  ∧ availableRows (applyFilters filters st) = availableRows st
  ∧ (is_Some (gridApi (applyFilters filters st)) ↔ is_Some (gridApi st))
  ∧ (gridApi st = None → applyFilters filters st = st).
Proof.
  rewrite applyFilters_inputValue, applyFilters_selected,
    applyFilters_availableRows.
  do 3 (split; [done|]).
  split; [apply applyFilters_is_Some | apply applyFilters_no_grid].
Qed.

(** X15: the filters are replaced, not accumulated: after two applications
    on a grid, the second of which completes, the grid holds the translation
    of the second chip sequence alone; it has been signalled twice, or once
    when the first application threw. *)
Theorem applyFilters_twice (filters1 filters2 : list Suggestion) (st : State)
    (api : GridApi) (filterModel : gmap string SetFilter)
    (globalTerms : list string) :
  gridApi st = Some api →
  applyFilters_translate filters2 = Some (filterModel, globalTerms) →
  gridApi (applyFilters filters2 (applyFilters filters1 st)) =
  Some (mkGridApi filterModel
          (isExternalFilterPresent globalTerms)
          (doesExternalFilterPass globalTerms)
          (filterChanged api + if decide (Exists throws filters1) then 1 else 2)).
Proof.
  intros Hapi (Hok & -> & ->)%applyFilters_translate_Some.
  destruct (decide (Exists throws filters1)) as [Hbad|Hgood].
  - rewrite (applyFilters_throws filters1) by done.
    rewrite (applyFilters_gridApi filters2 st api Hapi Hok).
    do 2 f_equal. lia.
  - pose proof (applyFilters_gridApi filters1 st api Hapi Hgood) as H1.
    rewrite (applyFilters_gridApi filters2 _ _ H1 Hok). simpl.
    do 2 f_equal. lia.
Qed.

(** ** The component as a state machine *)

Lemma handleBlur_cases (suggestions : list Suggestion) (st : State) :
  handleBlur suggestions st = st
  ∨ handleBlur suggestions st =
    applyFilters (selected st ++ [ newGlobal (inputValue st) ])
      (setInputValue EmptyString
         (setSelected (selected st ++ [ newGlobal (inputValue st) ]) st)).
Proof. unfold handleBlur. destruct (_ && _); auto. Qed.

Lemma onKeyDown_cases (e : KeyboardEvent) (suggestions : list Suggestion)
    (st : State) :
  (onKeyDown e suggestions st).2 = st
  ∨ (onKeyDown e suggestions st).2 =
    applyFilters (selected st ++ [ newGlobal (inputValue st) ])
      (setInputValue EmptyString
         (setSelected (selected st ++ [ newGlobal (inputValue st) ]) st))
  ∨ (onKeyDown e suggestions st).2 =
    applyFilters (removelast (selected st))
      (setSelected (removelast (selected st)) st).
Proof.
  destruct (decide (key e = "Enter")) as [Henter|Henter].
  - destruct (decide (inputValue st ≠ EmptyString ∧ suggestions = []))
      as [[Htext Hsugg]|Hpre].
    + right; left. by rewrite onKeyDown_Enter_commit.
    + left. by rewrite onKeyDown_Enter_noop.
  - destruct (decide (key e = "Backspace")) as [Hback|Hback].
    + rewrite onKeyDown_Backspace by done. simpl.
      destruct (_ && _); auto.
    + left. unfold onKeyDown.
      apply String.eqb_neq in Henter as ->. apply String.eqb_neq in Hback as Hb.
      simpl. by rewrite Hb.
Qed.

(** X16: chips and filters stay in step over an event: if the grid holds
    the translation of the chips before it, and no chip after it throws in
    the translation, the grid holds the translation of the chips after it. *)
Theorem dispatch_filters_applied (st : State) (ev : Event) :
  filters_applied st →
  ¬ Exists throws (selected (dispatch st ev)) →
  filters_applied (dispatch st ev).
Proof.
  intros Hst. destruct ev as [newValue|newInput| |e|nodes]; simpl.
  - unfold handleSelect. rewrite applyFilters_selected. simpl.
    intros Hok. by apply applyFilters_applied.
  - done.
  - destruct (handleBlur_cases (suggestions_of st) st) as [-> | ->];
      [done|].
    rewrite applyFilters_selected. simpl.
    intros Hok. by apply applyFilters_applied.
  - destruct (onKeyDown_cases e (suggestions_of st) st) as [-> | [-> | ->]];
      [done| |]; rewrite applyFilters_selected; simpl;
      intros Hok; by apply applyFilters_applied.
  - done.
Qed.

(** X17: what the events leave alone: typing and the grid's notification
    change neither the chips nor the grid; only the grid's notification
    changes the rows; and no event creates or loses the grid. *)
Theorem dispatch_frame (st : State) (ev : Event) :
  (match ev with
   | OnInputChange _ | FilterChanged _ =>
       selected (dispatch st ev) = selected st
       ∧ gridApi (dispatch st ev) = gridApi st
   | _ => True
   end)
  ∧ (match ev with
     | FilterChanged nodes => availableRows (dispatch st ev) = omap id nodes
     | _ => availableRows (dispatch st ev) = availableRows st
     end)
  ∧ (is_Some (gridApi (dispatch st ev)) ↔ is_Some (gridApi st)).
Proof.
  pose proof applyFilters_is_Some as Hgrid.
  destruct ev as [newValue|newInput| |e|nodes]; simpl.
  - split; [done|]. unfold handleSelect.
    by rewrite applyFilters_availableRows, Hgrid.
  - done.
  - split; [done|].
    destruct (handleBlur_cases (suggestions_of st) st) as [-> | ->]; [done|].
    by rewrite applyFilters_availableRows, Hgrid.
  - split; [done|].
    destruct (onKeyDown_cases e (suggestions_of st) st) as [-> | [-> | ->]];
      [done | by rewrite applyFilters_availableRows, Hgrid..].
  - done.
Qed.

(** ** Free-text commits against the rows on display *)

Lemma Object_values_fields (row : RowData) (val : string) :
  val ∈ Object_values row ↔ ∃ c, has_field row c val.
Proof.
  unfold has_field, Object_values, Object_entries, Js.String_of. split.
  - rewrite !elem_of_cons, elem_of_nil. intros [-> | [-> | [-> | []]]].
    + exists "ticker", (ticker row). split; [left | done].
    + exists "name", (name row). split; [right; left | done].
    + exists "sector", (sector row). split; [right; right; left | done].
  - intros (c & val' & Hentry & <-).
    rewrite !elem_of_cons, elem_of_nil in Hentry.
    destruct Hentry as [[= _ ->]|[[= _ ->]|[[= _ ->]|[]]]].
    + left.
    + right; left.
    + right; right; left.
Qed.

(** A non-empty text has no suggestion exactly when no field of a row on
    display contains it, case ignored. *)
Lemma suggestions_of_nil (st : State) :
  inputValue st ≠ EmptyString →
  suggestions_of st = [] ↔
  ∀ row val, row ∈ availableRows st → val ∈ Object_values row →
             ¬ Js.ci_substring_of (inputValue st) val.
Proof.
  intros Htext. unfold suggestions_of. split.
  - intros Hnil row val Hrow [c Hfield]%Object_values_fields Hsub.
    assert (mkSuggestion c val ∈
              suggestions (inputValue st) (columnValueMap (availableRows st)))
      as Hs.
    { apply suggestions_elem; [done|]. split; [|done].
      apply index_has_columnValueMap. by exists row. }
    rewrite Hnil in Hs. by apply not_elem_of_nil in Hs.
  - intros Hnone.
    destruct (suggestions _ _) as [|s l] eqn:Hsugg; [done|]. exfalso.
    assert (s ∈ suggestions (inputValue st) (columnValueMap (availableRows st)))
      as Hs by (rewrite Hsugg; left).
    apply suggestions_elem in Hs as [Hhas Hsub]; [|done].
    apply index_has_columnValueMap in Hhas as (row & Hrow & Hfield).
    apply (Hnone row (value s)); [done| |done].
    apply Object_values_fields. by exists (column s).
Qed.

Lemma globalTerms_of_commit (chips : list Suggestion) (text : string) :
  globalTerms_of (chips ++ [ newGlobal text ]) =
  globalTerms_of chips ++ [ Js.toLowerCase text ].
Proof.
  by rewrite !globalTerms_of_eq, chip_values_snoc, fmap_app.
Qed.

(** X18: on blur with a non-empty input text, the text is committed as a
    global chip exactly when no field of any row on display contains it,
    case ignored. *)
Theorem blur_commits_iff (st : State) :
  inputValue st ≠ EmptyString →
  selected (dispatch st OnBlur) =
    selected st ++ [ mkSuggestion "global" (inputValue st) ] ↔
  ∀ row val, row ∈ availableRows st → val ∈ Object_values row →
             ¬ Js.ci_substring_of (inputValue st) val.
Proof.
  intros Htext. rewrite <- suggestions_of_nil by done. simpl. split.
  - intros Hsel.
    destruct (decide (suggestions_of st = [])) as [|Hsugg]; [done|].
    rewrite handleBlur_noop in Hsel by (by intros [_ ?]).
    apply (f_equal length) in Hsel. rewrite length_app in Hsel. simpl in Hsel.
    lia.
  - intros Hsugg. rewrite handleBlur_commit by done.
    by rewrite applyFilters_selected.
Qed.

(** X19: a free-text commit hides every row that was on display: once the
    text without suggestion is committed, by blur or by Enter, the global
    predicate of the new chips rejects each of those rows. *)
Theorem commit_hides_available_rows (st : State) (row : RowData) :
  inputValue st ≠ EmptyString → suggestions_of st = [] →
  row ∈ availableRows st →
  doesExternalFilterPass (globalTerms_of (selected (dispatch st OnBlur))) row
    = false
  ∧ doesExternalFilterPass
      (globalTerms_of (selected (dispatch st (OnKeyDown Enter)))) row = false.
Proof.
  intros Htext Hsugg Hrow. simpl.
  rewrite handleBlur_commit, onKeyDown_Enter_commit by done. simpl.
  rewrite applyFilters_selected. simpl.
  fold (newGlobal (inputValue st)). rewrite globalTerms_of_commit.
  rewrite doesExternalFilterPass_forallb, forallb_app. cbn [forallb].
  assert (existsb
            (λ val, Js.includes (Js.toLowerCase (Js.String_of val))
                      (Js.toLowerCase (inputValue st)))
            (Object_values row) = false) as ->; [|by rewrite andb_false_r].
  apply not_true_is_false.
  intros (val & Hval%list_elem_of_In & Hinc%JsFacts.includes_spec)%existsb_exists.
  by apply (proj1 (suggestions_of_nil st Htext) Hsugg row val).
Qed.

(** X20: blurring twice commits once: a second blur right after the first
    changes nothing. *)
Theorem blur_twice (st : State) :
  dispatch (dispatch st OnBlur) OnBlur = dispatch st OnBlur.
Proof.
  simpl. destruct (handleBlur_cases (suggestions_of st) st) as [Heq | Heq];
    rewrite Heq.
  - by rewrite Heq.
  - apply handleBlur_noop. rewrite applyFilters_inputValue. simpl.
    by intros [? _].
Qed.

(** X21: Backspace undoes a commit's chip: after a free-text commit by blur,
    the input text is empty, and a Backspace then gives back the chip
    sequence from before the commit. *)
Theorem commit_then_backspace (e : KeyboardEvent) (st : State) :
  key e = "Backspace" →
  inputValue st ≠ EmptyString → suggestions_of st = [] →
  inputValue (dispatch st OnBlur) = EmptyString
  ∧ selected (dispatch (dispatch st OnBlur) (OnKeyDown e)) = selected st.
Proof.
  intros Hkey Htext Hsugg. simpl. rewrite handleBlur_commit by done.
  rewrite applyFilters_inputValue. split; [done|].
  rewrite onKeyDown_Backspace by done. simpl.
  rewrite applyFilters_inputValue, applyFilters_selected. simpl.
  rewrite (proj2 (length_ltb_0 _)) by (by destruct (selected st)). simpl.
  rewrite applyFilters_selected. simpl. apply removelast_last.
Qed.

(** X22: a key other than Enter and Backspace changes nothing: the handler
    returns the event and the state as they are. *)
Theorem onKeyDown_other_key (e : KeyboardEvent) (suggestions : list Suggestion)
    (st : State) :
  key e ≠ "Enter" → key e ≠ "Backspace" →
  onKeyDown e suggestions st = (e, st).
Proof.
  intros Henter%String.eqb_neq Hback%String.eqb_neq. unfold onKeyDown.
  rewrite Henter. simpl. by rewrite Hback.
Qed.

(** X23: the key handler keeps the event's key and prevents the default
    action exactly when it commits: on Enter with a non-empty text without
    suggestions (or when the default was prevented already). *)
Theorem onKeyDown_preventDefault (e : KeyboardEvent)
    (suggestions : list Suggestion) (st : State) :
  key (onKeyDown e suggestions st).1 = key e
  ∧ (defaultPrevented (onKeyDown e suggestions st).1 = true ↔
     defaultPrevented e = true
     ∨ (key e = "Enter" ∧ inputValue st ≠ EmptyString ∧ suggestions = [])).
Proof.
  destruct (decide (key e = "Enter")) as [Henter|Henter].
  - destruct (decide (inputValue st ≠ EmptyString ∧ suggestions = []))
      as [[Htext Hsugg]|Hpre].
    + rewrite onKeyDown_Enter_commit by done. simpl. split; [done|].
      split; [by right | done].
    + rewrite onKeyDown_Enter_noop by done. simpl. split; [done|].
      split; [by left | intros [H | (_ & H1 & H2)]; [done | by destruct Hpre]].
  - assert ((onKeyDown e suggestions st).1 = e) as ->.
    { unfold onKeyDown. apply String.eqb_neq in Henter as ->. simpl.
      by destruct (_ && _ && _). }
    split; [done|]. split; [by left | intros [H | (H & _)]; done].
Qed.

(** ** Rows reported by the grid, and chips on screen *)

(** X24: after the grid reports its nodes, the suggestions are drawn from
    the reported rows only: a pair is suggested exactly when the text is
    non-empty, some reported row has that value in that field, and the value
    contains the text, case ignored. *)
Theorem suggestions_after_filterChanged (nodes : list (option RowData))
    (st : State) (s : Suggestion) :
  s ∈ suggestions_of (dispatch st (FilterChanged nodes)) ↔
  inputValue st ≠ EmptyString
  ∧ (∃ row, Some row ∈ nodes ∧ has_field row (column s) (value s))
  ∧ Js.ci_substring_of (inputValue st) (value s).
Proof.
  unfold suggestions_of. simpl.
  assert (∀ row, row ∈ omap id nodes ↔ Some row ∈ nodes) as Hrows.
  { intros row. rewrite list_elem_of_omap. split.
    - by intros ([row'|] & Hin & [= ->]).
    - intros Hin. by exists (Some row). }
  destruct (decide (inputValue st = EmptyString)) as [Hempty|Htext].
  - rewrite Hempty. simpl. split; [by intros ?%not_elem_of_nil | by intros [? _]].
  - rewrite suggestions_elem, index_has_columnValueMap by done. split.
    + intros [(row & Hrow & Hfield) Hsub]. split; [done|]. split; [|done].
      exists row. by rewrite <- Hrows.
    + intros (_ & (row & Hrow & Hfield) & Hsub). split; [|done].
      exists row. by rewrite Hrows.
Qed.

(** X25: for chips of the grid's columns and of ["global"], the chip's key
    and the chip's label each determine the chip: two chips with the same
    key, or with the same label, are the same chip. *)
Theorem renderTags_key_label_inj (s1 s2 : Suggestion) :
  column s1 ∈ [ "ticker"; "name"; "sector"; "global" ] →
  column s2 ∈ [ "ticker"; "name"; "sector"; "global" ] →
  (renderTags_key s1 = renderTags_key s2 → s1 = s2)
  ∧ (renderTags_label s1 = renderTags_label s2 → s1 = s2).
Proof.
  destruct s1 as [c1 v1], s2 as [c2 v2]. simpl.
  rewrite !elem_of_cons, !elem_of_nil.
  intros [-> | [-> | [-> | [-> | []]]]] [-> | [-> | [-> | [-> | []]]]];
    split; intros H; cbv in H; by simplify_eq.
Qed.

(** ** The further properties on the component's own data *)

Lemma columnValueMap_same_rows_witness :
  columnValueMap [ mkRowData "AAPL" "Apple Inc." "Tech"; mkRowData "F" "Ford" "Auto" ] =
  columnValueMap [ mkRowData "F" "Ford" "Auto"; mkRowData "AAPL" "Apple Inc." "Tech";
                   mkRowData "F" "Ford" "Auto" ].
Proof.
  apply columnValueMap_same_rows. intros row.
  rewrite !elem_of_cons, elem_of_nil. tauto.
Defined.

Lemma suggestions_input_case_witness :
  suggestions "TECH" (columnValueMap rowData) =
  suggestions "tech" (columnValueMap rowData).
Proof. apply suggestions_input_case. reflexivity. Defined.

Lemma suggestions_narrow_witness :
  mkSuggestion "sector" "Tech" ∈ suggestions "te" (columnValueMap rowData).
Proof.
  apply (suggestions_narrow "te" "tech").
  - discriminate.
  - exists EmptyString, "ch". reflexivity.
  - assert (suggestions "tech" (columnValueMap rowData) =
            [ mkSuggestion "sector" "Tech" ]) as -> by (vm_compute; reflexivity).
    left.
Defined.

Lemma suggestions_of_rows_witness :
  (∃ d, d ∈ columnDefs ∧ field d = "sector")
  ∧ "sector" ≠ "global"
  ∧ groupBy (mkSuggestion "sector" "Tech") = "sector"
  ∧ ∃ row, row ∈ rowData ∧ has_field row "sector" "Tech".
Proof.
  apply (suggestions_of_rows "tech" rowData (mkSuggestion "sector" "Tech")).
  assert (suggestions "tech" (columnValueMap rowData) =
          [ mkSuggestion "sector" "Tech" ]) as -> by (vm_compute; reflexivity).
  left.
Defined.

Lemma filterModel_of_entry_witness :
  "sector" ≠ "global"
  ∧ ("sector" ∉ Object_prototype_keys)
  ∧ filterType (mkSetFilter "set" [ "Tech" ]) = "set"
  ∧ values (mkSetFilter "set" [ "Tech" ]) =
    map value (filter (λ s, column s = "sector")
                 [ mkSuggestion "sector" "Tech"; mkSuggestion "global" "Ford" ])
  ∧ values (mkSetFilter "set" [ "Tech" ]) ≠ [].
Proof.
  apply (filterModel_of_entry
           [ mkSuggestion "sector" "Tech"; mkSuggestion "global" "Ford" ]
           {[ "sector" := mkSetFilter "set" [ "Tech" ] ]} [ "ford" ]).
  - vm_compute. reflexivity.
  - vm_compute. reflexivity.
Defined.

Lemma applyFilters_translate_split_witness :
  applyFilters_translate
    (filter (λ s, column s ≠ "global")
       [ mkSuggestion "sector" "Tech"; mkSuggestion "global" "Ford" ]) =
    Some ({[ "sector" := mkSetFilter "set" [ "Tech" ] ]}, [])
  ∧ applyFilters_translate
      (filter (λ s, column s = "global")
         [ mkSuggestion "sector" "Tech"; mkSuggestion "global" "Ford" ]) =
    Some (∅, [ "ford" ]).
Proof.
  apply applyFilters_translate_split. vm_compute. reflexivity.
Defined.

Lemma applyFilters_translate_app_witness :
  applyFilters_translate
    ([ mkSuggestion "sector" "Tech" ] ++ [ mkSuggestion "sector" "Auto" ]) =
  Some (union_with
          (λ f g, Some (mkSetFilter (filterType f) (values f ++ values g)))
          {[ "sector" := mkSetFilter "set" [ "Tech" ] ]}
          {[ "sector" := mkSetFilter "set" [ "Auto" ] ]},
        [] ++ []).
Proof.
  apply applyFilters_translate_app; vm_compute; reflexivity.
Defined.

Lemma applyFilters_twice_witness :
  gridApi
    (applyFilters [ mkSuggestion "global" "Ford" ]
       (applyFilters [ mkSuggestion "toString" "x" ]
          (mkState EmptyString [] rowData
             (Some (mkGridApi ∅ (λ _, false) (λ _, true) 0))))) =
  Some (mkGridApi ∅ (isExternalFilterPresent [ "ford" ])
          (doesExternalFilterPass [ "ford" ])
          (0 + if decide (Exists throws [ mkSuggestion "toString" "x" ])
               then 1 else 2)).
Proof.
  apply (applyFilters_twice [ mkSuggestion "toString" "x" ]
           [ mkSuggestion "global" "Ford" ] _
           (mkGridApi ∅ (λ _, false) (λ _, true) 0)).
  - reflexivity.
  - vm_compute. reflexivity.
Defined.

Lemma dispatch_filters_applied_witness :
  filters_applied
    (dispatch
       (mkState EmptyString [] rowData
          (Some (mkGridApi ∅ (isExternalFilterPresent [])
                   (doesExternalFilterPass []) 0)))
       (OnChange [ mkSuggestion "sector" "Tech" ])).
Proof.
  apply dispatch_filters_applied.
  - intros api [= <-]. repeat split; reflexivity.
  - simpl. unfold handleSelect. rewrite applyFilters_selected. simpl.
    rewrite Exists_cons, Exists_nil. unfold throws. simpl.
    intros [[_ Hp] | []]. revert Hp.
    apply (proj1 (bool_decide_eq_false _)). vm_compute. reflexivity.
Defined.

Lemma blur_commits_iff_witness :
  selected (dispatch (mkState "xyz" [] rowData None) OnBlur) =
    [ mkSuggestion "global" "xyz" ] ↔
  ∀ row val, row ∈ rowData → val ∈ Object_values row →
             ¬ Js.ci_substring_of "xyz" val.
Proof.
  apply (blur_commits_iff (mkState "xyz" [] rowData None)). discriminate.
Defined.

Lemma commit_hides_available_rows_witness :
  doesExternalFilterPass
    (globalTerms_of (selected (dispatch (mkState "xyz" [] rowData None) OnBlur)))
    (mkRowData "F" "Ford" "Auto") = false
  ∧ doesExternalFilterPass
      (globalTerms_of
         (selected (dispatch (mkState "xyz" [] rowData None) (OnKeyDown Enter))))
      (mkRowData "F" "Ford" "Auto") = false.
Proof.
  apply (commit_hides_available_rows (mkState "xyz" [] rowData None)).
  - discriminate.
  - vm_compute. reflexivity.
  - simpl. unfold rowData. do 4 right. left.
Defined.

Lemma commit_then_backspace_witness :
  inputValue (dispatch (mkState "xyz" [ mkSuggestion "sector" "Tech" ] rowData None)
                OnBlur) = EmptyString
  ∧ selected
      (dispatch
         (dispatch (mkState "xyz" [ mkSuggestion "sector" "Tech" ] rowData None)
            OnBlur)
         (OnKeyDown Backspace)) =
    [ mkSuggestion "sector" "Tech" ].
Proof.
  apply (commit_then_backspace Backspace
           (mkState "xyz" [ mkSuggestion "sector" "Tech" ] rowData None)).
  - reflexivity.
  - discriminate.
  - vm_compute. reflexivity.
Defined.

Lemma onKeyDown_other_key_witness :
  onKeyDown (mkKeyboardEvent "a" false) []
    (mkState "xyz" [ mkSuggestion "sector" "Tech" ] rowData None) =
  (mkKeyboardEvent "a" false,
   mkState "xyz" [ mkSuggestion "sector" "Tech" ] rowData None).
Proof. apply onKeyDown_other_key; discriminate. Defined.

Lemma renderTags_key_label_inj_witness :
  (renderTags_key (mkSuggestion "ticker" "F") =
     renderTags_key (mkSuggestion "global" "F") →
   mkSuggestion "ticker" "F" = mkSuggestion "global" "F")
  ∧ (renderTags_label (mkSuggestion "ticker" "F") =
       renderTags_label (mkSuggestion "global" "F") →
     mkSuggestion "ticker" "F" = mkSuggestion "global" "F").
Proof.
  apply renderTags_key_label_inj; simpl.
  - left.
  - do 3 right. left.
Defined.
